(** * Mass balance calculator for fruit pulp (App.py)

    A shallow embedding of [App.py]: the function [calculate_mass_balance]
    and the result column of the Streamlit page that calls it.

    Python's [float] is IEEE 754 binary64, so the program is modelled on
    Rocq's primitive floats ([PrimFloat]), whose operations are specified by
    [SpecFloat].  The arithmetic is written over the interface [PyFloat],
    whose instance [binary64] is what the interpreter computes.  Rounding
    errors are bounded on the exact values of the floats, which are integers
    in units of [2^-1074].

    Calls into Streamlit ([st.error], [st.warning], ...) are effects: they are
    recorded, in order, in a log that is threaded through the computation. *)

From Stdlib Require Import ZArith Floats Bool List String Lia.
Import ListNotations.

Set Implicit Arguments.

(** ** Numbers *)

(** The operations of Python's [float] that the program uses.  [lit_0],
    [lit_1] and [lit_100] are the literals [0], [1] and [100.0]. *)
Class PyFloat (F : Type) : Type := {
  lit_0 : F;
  lit_1 : F;
  lit_100 : F;
  add : F -> F -> F;
  sub : F -> F -> F;
  mul : F -> F -> F;
  div : F -> F -> F;
  eqb : F -> F -> bool;
  ltb : F -> F -> bool;
  leb : F -> F -> bool
}.

Declare Scope py_scope.
Delimit Scope py_scope with py.
Infix "+" := add : py_scope.
Infix "-" := sub : py_scope.
Infix "*" := mul : py_scope.
Infix "==" := eqb (at level 70, no associativity) : py_scope.
Infix "<" := ltb : py_scope.
Infix "<=" := leb : py_scope.

(** CPython's float: binary64 with round-to-nearest-even. *)
#[export] Instance binary64 : PyFloat float := {
  lit_0 := 0%float;
  lit_1 := 1%float;
  lit_100 := 100%float;
  add := PrimFloat.add;
  sub := PrimFloat.sub;
  mul := PrimFloat.mul;
  div := PrimFloat.div;
  eqb := PrimFloat.eqb;
  ltb := PrimFloat.ltb;
  leb := PrimFloat.leb
}.

(** ** Streamlit calls and Python outcomes *)

(** The functions of the [st] module that the page calls. *)
Inductive st_fn : Type :=
  | header | subheader | markdown | write
  | error | warning | success | info
  | columns | metric | expander | image.

(** A piece of a (formatted) string: literal text, a number formatted with
    [:.2f], or a number formatted by [str]. *)
Inductive piece (F : Type) : Type :=
  | Text (s : string)
  | Fixed2 (v : F)
  | Str (v : F).
Arguments Text {F} s.

(** One call [st.fn(args)]. *)
Record st_call (F : Type) : Type := Call { fn : st_fn; args : list (piece F) }.

Inductive exn : Type := ZeroDivisionError | TypeError.

Inductive outcome (A : Type) : Type :=
  | Returned (a : A)
  | Raised (e : exn).
Arguments Raised {A} e.

(** A Python computation: it reads the log of Streamlit calls made so far and
    gives an outcome and the extended log. *)
Definition Py (F A : Type) : Type := list (st_call F) -> outcome A * list (st_call F).

Definition ret {F A : Type} (a : A) : Py F A := fun log => (Returned a, log).

Definition bind {F A B : Type} (c : Py F A) (k : A -> Py F B) : Py F B :=
  fun log =>
    match c log with
    | (Returned a, log') => k a log'
    | (Raised e, log') => (Raised e, log')
    end.

Definition raise {F A : Type} (e : exn) : Py F A := fun log => (Raised e, log).

Definition st {F : Type} (f : st_fn) (a : list (piece F)) : Py F unit :=
  fun log => (Returned tt, log ++ [Call f a]).

Notation "x <- c ;; k" := (bind c (fun x => k))
  (at level 61, c at next level, right associativity).
Notation "c ;; k" := (bind c (fun _ => k))
  (at level 61, right associativity).

Section Program.

Context {F : Type} `{PyFloat F}.
Local Open Scope py_scope.
Local Open Scope string_scope.

(** [a / b] on Python floats: a zero divisor raises. *)
Definition truediv (a b : F) : Py F F :=
  if b == lit_0 then raise ZeroDivisionError else ret (div a b).

Definition error_message : string :=
  "Error: La concentración final no puede ser 100% porque la pulpa inicial contiene agua.".

(** [calculate_mass_balance] (App.py, lines 3-35).  The Python tuple
    [(None, None)] is the pair [(None, None)]; a pair of numbers is
    [(Some _, Some _)]. *)
Definition calculate_mass_balance
    (initial_mass initial_concentration final_concentration : F)
    : Py F (option F * option F) :=
  q1 <- truediv initial_concentration lit_100 ;;
  let initial_water_fraction := lit_1 - q1 in
  q3 <- truediv final_concentration lit_100 ;;
  let final_water_fraction := lit_1 - q3 in
  if final_water_fraction == lit_0 then
    st error [Text error_message] ;;
    ret (None, None)
  else
    final_mass <- truediv (initial_mass * initial_water_fraction) final_water_fraction ;;
    let sugar_mass_to_add := final_mass - initial_mass in
    ret (Some final_mass, Some sugar_mass_to_add).

(** The two water fractions, as lines 17 and 18 compute them. *)
Definition water_fraction (concentration : F) : F :=
  lit_1 - div concentration lit_100.

Definition warning_message : string :=
  "La concentración final deseada debe ser mayor que la concentración inicial para agregar azúcar.".

Definition info_message : string :=
  "Ingresa los datos en el formulario de la izquierda y presiona 'Calcular' para ver los resultados.".

(** The text of the first [st.markdown] of the expander (lines 98-103). *)
Definition principles_markdown : string :=
  "
                    1.  **Balance General de Masa:** La masa total que entra al sistema es igual a la que sale.
                        $$ M_1 + M_2 = M_3 $$
                    2.  **Balance de Componente (Agua):** La masa de agua se conserva, ya que el azúcar añadido no contiene agua.
                        $$ M_1 \cdot Y_1 = M_3 \cdot Y_3 $$
                    ".

(** The f-string of the second one (lines 105-110), with the two water
    fractions it formats. *)
Definition procedure_markdown
    (m1_input x1_input x3_input y1 y3 m3_calculada m2_calculado : F)
    : list (piece F) :=
    [Text "
                    -   **Paso 1: Calcular la masa final (M3)** a partir del balance de agua, donde $Y_1 = 1 - (";
     Str x1_input;
     Text "/100)$ y $Y_3 = 1 - (";
     Str x3_input;
     Text "/100)$.
                        $$ M_3 = \frac{M_1 \cdot Y_1}{Y_3} = \frac{";
     Str m1_input;
     Text " \text{ kg} \cdot ";
     Fixed2 y1;
     Text "}{";
     Fixed2 y3;
     Text "} = ";
     Fixed2 m3_calculada;
     Text " \text{ kg} $$
                    -   **Paso 2: Calcular la masa de azúcar (M2)** a partir del balance general.
                        $$ M_2 = M_3 - M_1 = ";
     Fixed2 m3_calculada;
     Text " \text{ kg} - ";
     Str m1_input;
     Text " \text{ kg} = ";
     Fixed2 m2_calculado;
     Text " \text{ kg} $$
                    "].

(** The body of [if m3_calculada is not None:] (lines 88-110).  [st.columns]
    gives the two containers the metrics are drawn in. *)
Definition show_results (m1_input x1_input x3_input m3_calculada m2_calculado : F)
    : Py F unit :=
  st success [Text "**Resultado:** Se deben agregar **"; Fixed2 m2_calculado;
              Text " kg** de azúcar."] ;;
  st markdown [Text "---"] ;;
  st subheader [Text "Detalles del Balance:"] ;;
  st columns [Text "2"] ;;
  st metric [Text "Masa Final de la Pulpa (M3)"; Fixed2 m3_calculada; Text " kg"] ;;
  st metric [Text "Azúcar a Agregar (M2)"; Fixed2 m2_calculado; Text " kg"] ;;
  st expander [Text "Ver las fórmulas y el procedimiento de cálculo ▼"] ;;
  st write [Text "El cálculo se basa en dos principios de conservación de masa:"] ;;
  st markdown [Text principles_markdown] ;;
  st write [Text "**Procedimiento:**"] ;;
  q1 <- truediv x1_input lit_100 ;;
  q3 <- truediv x3_input lit_100 ;;
  st markdown (procedure_markdown m1_input x1_input x3_input
                 (lit_1 - q1) (lit_1 - q3) m3_calculada m2_calculado).

(** The result column, [with col2:] (lines 79-116), over the function it
    calls at line 85, so that a statement can say whether that call is made. *)
Definition results_column_with
    (compute : F -> F -> F -> Py F (option F * option F))
    (submit_button : bool) (m1_input x1_input x3_input : F) : Py F unit :=
  st header [Text "📊 Resultados del Cálculo"] ;;
  (if submit_button then
     if x3_input <= x1_input then
       st warning [Text warning_message]
     else
       r <- compute m1_input x1_input x3_input ;;
       match r with
       | (Some m3_calculada, Some m2_calculado) =>
           show_results m1_input x1_input x3_input m3_calculada m2_calculado
       | (Some m3_calculada, None) =>
           (* formatting [None] with [:.2f] at line 88 *)
           raise TypeError
       | (None, _) => ret tt
       end
   else
     st info [Text info_message]) ;;
  st markdown [Text "---"] ;;
  st image [Text "https://i.imgur.com/gK5L0a4.jpeg";
            Text "Diagrama de referencia del problema de balance de masa."].

(** The page as written: line 85 calls [calculate_mass_balance]. *)
Definition results_column : bool -> F -> F -> F -> Py F unit :=
  results_column_with calculate_mass_balance.

End Program.

(** ** The input form *)

#[local] Set Warnings "-inexact-float".

(** The keyword arguments of a [st.number_input] (lines 53-75).  Streamlit
    returns a value [v] with [min_value <= v] and, when a maximum is given,
    [v <= max_value]. *)
Record number_input : Type := NumberInput {
  min_value : float;
  max_value : option float;
  value : float;
  step : float
}.

Definition m1_number_input : number_input :=
  {| min_value := 0.0; max_value := None; value := 50.0; step := 0.5 |}.

Definition x1_number_input : number_input :=
  {| min_value := 0.0; max_value := Some 99.9%float; value := 7.0; step := 0.1 |}.

Definition x3_number_input : number_input :=
  {| min_value := 0.0; max_value := Some 99.9%float; value := 10.0; step := 0.1 |}.

Definition in_range (w : number_input) (v : float) : bool :=
  (min_value w <=? v)%float &&
  match max_value w with
  | Some hi => (v <=? hi)%float
  | None => true
  end.

(** ** Vocabulary for the statements *)


(** Whether a log contains a call of [st.error]. *)
Definition calls_error {F : Type} (log : list (st_call F)) : bool :=
  existsb (fun c => match fn c with error => true | _ => false end) log.

(** [100.0] and [1.0] as [SpecFloat] values. *)
Definition c100 : positive := 7036874417766400.
Definition SF100 : spec_float := S754_finite false c100 (-46).
Definition SF1 : spec_float := S754_finite false 4503599627370496 (-52).

(** What [binary_round_aux] returns for the final mantissa and exponent. *)
Definition round_result (s : bool) (m3 e3 : Z) : spec_float :=
  match m3 with
  | Z0 => S754_zero s
  | Zpos m => if (e3 <=? 971)%Z then S754_finite s m e3 else S754_infinity s
  | Zneg _ => S754_nan
  end.

(** Zero or a finite number: neither an infinity nor NaN. *)
Definition SFfinite (X : spec_float) : bool :=
  match X with
  | S754_zero _ | S754_finite _ _ _ => true
  | _ => false
  end.

Definition small_exponent (X : spec_float) : Prop :=
  match X with
  | S754_zero _ => True
  | S754_finite _ _ e => (e <= 900)%Z
  | _ => False
  end.

(** The exact value of a finite number, in units of [2^-1074]: every
    finite binary64 number is an integer multiple of [2^-1074].  Infinities
    and NaN are given 0. *)
Definition scaled (X : spec_float) : Z :=
  match X with
  | S754_finite s m e => cond_Zopp s (Z.pos m * 2 ^ (e + 1074))
  | _ => 0%Z
  end.

Definition float_scaled (x : float) : Z := scaled (Prim2SF x).

(** A float that is zero or a finite number. *)
Definition float_finite (x : float) : bool := SFfinite (Prim2SF x).

Unset Implicit Arguments.

(** ** Binary64 arithmetic

    Facts about [SpecFloat] at precision 53 and [emax = 1024], as far as the
    two water fractions need them. *)

Module Binary64.

Open Scope Z_scope.

Ltac pow2_pos := apply Z.pow_pos_nonneg; lia.

(** *** Number of binary digits *)

Lemma digits2_pos_size (p : positive) : digits2_pos p = Pos.size p.
Proof. induction p; simpl; congruence. Qed.

Lemma Zdigits2_log2 (m : Z) : 0 < m -> Zdigits2 m = Z.log2 m + 1.
Proof.
  destruct m as [|p|p]; try lia. intros _. simpl.
  rewrite digits2_pos_size.
  destruct p; simpl; lia.
Qed.

Lemma Zdigits2_bounds (m : Z) :
  0 < m -> 2 ^ (Zdigits2 m - 1) <= m < 2 ^ Zdigits2 m.
Proof.
  intros H. rewrite (Zdigits2_log2 m H).
  replace (Z.log2 m + 1 - 1) with (Z.log2 m) by lia.
  replace (Z.log2 m + 1) with (Z.succ (Z.log2 m)) by lia.
  apply Z.log2_spec; exact H.
Qed.

Lemma Zdigits2_le (m k : Z) : 0 < m -> m < 2 ^ k -> Zdigits2 m <= k.
Proof.
  intros H0 H. rewrite (Zdigits2_log2 m H0).
  assert (0 <= k \/ k < 0) as [Hk|Hk] by lia.
  - apply Z.log2_lt_pow2 in H; lia.
  - rewrite Z.pow_neg_r in H; lia.
Qed.

Lemma Zdigits2_gt (m k : Z) : 0 <= k -> 2 ^ k <= m -> k < Zdigits2 m.
Proof.
  intros Hk H.
  assert (0 < m) by (pose proof (Z.pow_pos_nonneg 2 k); lia).
  rewrite (Zdigits2_log2 m) by assumption.
  apply Z.log2_le_pow2 in H; lia.
Qed.

(** *** Right shifts and the two rounding steps *)

Lemma shr_1_m (r : shr_record) : 0 <= shr_m r -> shr_m (shr_1 r) = shr_m r / 2.
Proof.
  destruct r as [m r s]; cbn [shr_1 shr_m]. intros H.
  destruct m as [|p|p]; try lia; [reflexivity|].
  destruct p; cbn [shr_m].
  - rewrite Pos2Z.inj_xI. apply Z.div_unique with 1; lia.
  - rewrite Pos2Z.inj_xO. apply Z.div_unique with 0; lia.
  - reflexivity.
Qed.

Lemma pow2_xI (p : positive) : 2 ^ Z.pos p~1 = 2 * (2 ^ Z.pos p * 2 ^ Z.pos p).
Proof.
  assert (Z.pos p~1 = 1 + Z.pos p + Z.pos p) as -> by lia.
  rewrite !Z.pow_add_r by lia. lia.
Qed.

Lemma pow2_xO (p : positive) : 2 ^ Z.pos p~0 = 2 ^ Z.pos p * 2 ^ Z.pos p.
Proof.
  assert (Z.pos p~0 = Z.pos p + Z.pos p) as -> by lia.
  rewrite !Z.pow_add_r by lia. lia.
Qed.

Lemma iter_shr_1_m (p : positive) : forall r,
  0 <= shr_m r -> shr_m (SpecFloat.iter_pos shr_1 p r) = shr_m r / 2 ^ Zpos p.
Proof.
  assert (Hpow : forall q, 0 < 2 ^ Z.pos q) by (intros; pow2_pos).
  induction p; intros r H; simpl SpecFloat.iter_pos.
  - assert (H1 : 0 <= shr_m (shr_1 r)) by (rewrite shr_1_m by lia; apply Z.div_pos; lia).
    assert (H2 : 0 <= shr_m (SpecFloat.iter_pos shr_1 p (shr_1 r)))
      by (rewrite IHp by lia; apply Z.div_pos; [lia | apply Hpow]).
    rewrite IHp, IHp, shr_1_m by assumption.
    pose proof (Hpow p).
    rewrite !Z.div_div by lia.
    rewrite pow2_xI. reflexivity.
  - assert (H2 : 0 <= shr_m (SpecFloat.iter_pos shr_1 p r))
      by (rewrite IHp by lia; apply Z.div_pos; [lia | apply Hpow]).
    rewrite IHp, IHp by assumption.
    pose proof (Hpow p).
    rewrite !Z.div_div by lia.
    rewrite pow2_xO. reflexivity.
  - rewrite shr_1_m by assumption. reflexivity.
Qed.

Lemma shr_spec (r : shr_record) (e n : Z) :
  0 <= shr_m r ->
  shr_m (fst (shr r e n)) = shr_m r / 2 ^ Z.max 0 n /\ snd (shr r e n) = e + Z.max 0 n.
Proof.
  intros H. destruct n as [|p|p]; simpl.
  - rewrite Z.div_1_r. lia.
  - rewrite iter_shr_1_m by assumption. rewrite Z.max_r by lia. lia.
  - rewrite Z.div_1_r. lia.
Qed.

Lemma fexp64 (k : Z) : fexp prec emax k = Z.max (k - 53) (-1074).
Proof. reflexivity. Qed.

Lemma shr_record_of_loc_m (m : Z) (l : location) : shr_m (shr_record_of_loc m l) = m.
Proof. destruct l as [|[]]; reflexivity. Qed.

Lemma round_nearest_even_bounds (m : Z) (l : location) :
  m <= round_nearest_even m l <= m + 1.
Proof.
  destruct l as [|[]]; cbn [round_nearest_even]; try lia.
  destruct (Z.even m); lia.
Qed.

Lemma shr_fexp_spec (m e : Z) (l : location) :
  0 <= m ->
  let n := Z.max 0 (fexp prec emax (Zdigits2 m + e) - e) in
  shr_m (fst (shr_fexp prec emax m e l)) = m / 2 ^ n /\
  snd (shr_fexp prec emax m e l) = e + n.
Proof.
  intros H n. unfold shr_fexp.
  pose proof (shr_spec (shr_record_of_loc m l) e (fexp prec emax (Zdigits2 m + e) - e)) as S.
  rewrite shr_record_of_loc_m in S. apply S. exact H.
Qed.


Lemma binary_round_aux_spec (s : bool) (q e : Z) (l : location) :
  0 <= q ->
  exists m2 : Z,
    let n1 := Z.max 0 (fexp prec emax (Zdigits2 q + e) - e) in
    let n2 := Z.max 0 (fexp prec emax (Zdigits2 m2 + (e + n1)) - (e + n1)) in
    q / 2 ^ n1 <= m2 <= q / 2 ^ n1 + 1 /\
    binary_round_aux prec emax s q e l = round_result s (m2 / 2 ^ n2) (e + n1 + n2).
Proof.
  intros Hq. unfold binary_round_aux.
  pose proof (shr_fexp_spec q e l Hq) as [Hm1 He1].
  destruct (shr_fexp prec emax q e l) as [mrs' e'].
  cbn [fst snd] in Hm1, He1.
  set (m2 := round_nearest_even (shr_m mrs') (loc_of_shr_record mrs')).
  pose proof (round_nearest_even_bounds (shr_m mrs') (loc_of_shr_record mrs')) as Hb.
  fold m2 in Hb.
  assert (H1 : 0 <= shr_m mrs').
  { rewrite Hm1. apply Z.div_pos; [lia|]. pow2_pos. }
  assert (H2 : 0 <= m2) by lia.
  pose proof (shr_fexp_spec m2 e' loc_Exact H2) as [Hm3 He3].
  destruct (shr_fexp prec emax m2 e' loc_Exact) as [mrs'' e''].
  cbn [fst snd] in Hm3, He3.
  exists m2. cbv zeta. rewrite <- He1, <- Hm1. split; [exact Hb|].
  rewrite Hm3, He3. reflexivity.
Qed.

(** *** Division by [100.0] *)

Lemma Prim2SF_100 : Prim2SF 100%float = SF100.
Proof. reflexivity. Qed.
Lemma Prim2SF_1 : Prim2SF 1%float = SF1.
Proof. reflexivity. Qed.

Lemma bounded_spec (m : positive) (e : Z) :
  bounded prec emax m e = true ->
  2 ^ (Zdigits2 (Z.pos m) - 1) <= Z.pos m < 2 ^ Zdigits2 (Z.pos m) /\
  1 <= Zdigits2 (Z.pos m) <= 53 /\ -1074 <= e <= 971 /\
  (Zdigits2 (Z.pos m) = 53 \/ e = -1074).
Proof.
  unfold bounded, canonical_mantissa. rewrite andb_true_iff, Z.eqb_eq, Z.leb_le, fexp64.
  change (Z.pos (digits2_pos m)) with (Zdigits2 (Z.pos m)).
  change (emax - prec) with 971.
  intros [Hc He].
  pose proof (Zdigits2_bounds (Z.pos m) ltac:(lia)) as Hd.
  assert (1 <= Zdigits2 (Z.pos m)) by (simpl; lia).
  repeat split; try lia.
Qed.

Lemma div_eucl_div_mod (a b : Z) : Z.div_eucl a b = (a / b, a mod b).
Proof. unfold Z.div, Z.modulo. destruct (Z.div_eucl a b); reflexivity. Qed.

Lemma SFdiv_core_100 (m : positive) (e : Z) :
  bounded prec emax m e = true ->
  let s := Z.min 53 (e + 1120) in
  SFdiv_core_binary prec emax (Z.pos m) e (Z.pos c100) (-46) =
    (Z.pos m * 2 ^ s / Z.pos c100, e + 46 - s,
     new_location (Z.pos c100) ((Z.pos m * 2 ^ s) mod Z.pos c100)).
Proof.
  intros Hb s. apply bounded_spec in Hb.
  unfold SFdiv_core_binary.
  change (Zdigits2 (Z.pos c100)) with 53.
  set (d := Zdigits2 (Z.pos m)) in *.
  rewrite fexp64.
  set (e' := Z.min _ _).
  assert (He' : e' = e + 46 - s) by (unfold e', s; lia).
  assert (Hs : e - -46 - e' = s) by lia.
  rewrite Hs, He'.
  assert (46 <= s <= 53) by (unfold s; lia).
  destruct s as [|p|p] eqn:Es; try lia.
  rewrite Z.shiftl_mul_pow2 by lia.
  rewrite div_eucl_div_mod. reflexivity.
Qed.

Lemma Zdigits2_le0 (m k : Z) : 0 <= m -> 0 <= k -> m < 2 ^ k -> Zdigits2 m <= k.
Proof.
  intros H0 Hk H. assert (m = 0 \/ 0 < m) as [->|Hm] by lia.
  - exact Hk.
  - apply Zdigits2_le; assumption.
Qed.

Lemma bounded_range (m : positive) (e : Z) :
  bounded prec emax m e = true ->
  -1074 <= e <= 971 /\ Z.pos m < 9007199254740992 /\
  (-1074 < e -> 4503599627370496 <= Z.pos m).
Proof.
  intros Hb. apply bounded_spec in Hb.
  destruct Hb as (Hd & Hr & He & Hc).
  assert (2 ^ Zdigits2 (Z.pos m) <= 2 ^ 53) by (apply Z.pow_le_mono_r; lia).
  change (2 ^ 53) with 9007199254740992 in *.
  repeat split; try lia.
  intros Hn. destruct Hc as [Hc|Hc]; [|lia].
  rewrite Hc in Hd. change (2 ^ (53 - 1)) with 4503599627370496 in Hd. lia.
Qed.

(** The shift of a rounding step, for a mantissa below [2^54]. *)
Lemma round_shift (q e : Z) :
  0 <= q < 18014398509481984 -> -1074 <= e ->
  let n := Z.max 0 (fexp prec emax (Zdigits2 q + e) - e) in
  (q < 9007199254740992 /\ n = 0) \/ (9007199254740992 <= q /\ n = 1).
Proof.
  intros Hq He n. unfold n. rewrite fexp64.
  destruct (Z_lt_le_dec q 9007199254740992) as [Hlt|Hge].
  - left. split; [exact Hlt|].
    pose proof (Zdigits2_le0 q 53 ltac:(lia) ltac:(lia) Hlt). lia.
  - right. split; [exact Hge|].
    pose proof (Zdigits2_le0 q 54 ltac:(lia) ltac:(lia) ltac:(apply (proj2 Hq))).
    pose proof (Zdigits2_gt q 53 ltac:(lia) Hge). lia.
Qed.

Lemma SFdiv_100_bracket (sx : bool) (m : positive) (e : Z) :
  bounded prec emax m e = true ->
  exists m2 n1 n2 : Z,
    let s := Z.min 53 (e + 1120) in
    let q := Z.pos m * 2 ^ s / Z.pos c100 in
    let e' := e + 46 - s in
    ((q < 9007199254740992 /\ n1 = 0) \/ (9007199254740992 <= q /\ n1 = 1)) /\
    ((m2 < 9007199254740992 /\ n2 = 0) \/ (9007199254740992 = m2 /\ n2 = 1)) /\
    q / 2 ^ n1 <= m2 <= q / 2 ^ n1 + 1 /\
    0 <= q < 18014398509481984 /\ -1074 <= e' /\
    SF64div (S754_finite sx m e) SF100 = round_result sx (m2 / 2 ^ n2) (e' + n1 + n2).
Proof.
  intros Hb. unfold SF64div, SF100, SFdiv.
  rewrite (SFdiv_core_100 m e Hb). cbv zeta.
  apply bounded_range in Hb. destruct Hb as (He & Hm & _).
  set (s := Z.min 53 (e + 1120)). set (q := Z.pos m * 2 ^ s / Z.pos c100).
  set (e' := e + 46 - s).
  assert (Hs : 0 <= s <= 53) by (unfold s; lia).
  assert (Hq : 0 <= q < 18014398509481984).
  { assert (0 < 2 ^ s) by pow2_pos.
    assert (2 ^ s <= 2 ^ 53) by (apply Z.pow_le_mono_r; lia).
    change (2 ^ 53) with 9007199254740992 in *.
    split.
    - apply Z.div_pos; [|reflexivity]. apply Z.mul_nonneg_nonneg; lia.
    - apply Z.div_lt_upper_bound; [reflexivity|]. unfold c100. nia. }
  assert (He' : -1074 <= e') by (unfold e', s; lia).
  destruct (binary_round_aux_spec (xorb sx false) q e'
              (new_location (Z.pos c100) ((Z.pos m * 2 ^ s) mod Z.pos c100))
              (proj1 Hq)) as [m2 [Hm2 Hres]].
  cbv zeta in Hm2, Hres.
  pose proof (round_shift q e' Hq He') as Hn1. cbv zeta in Hn1.
  set (n1 := Z.max 0 (fexp prec emax (Zdigits2 q + e') - e')) in *.
  assert (Hq1 : 0 <= q / 2 ^ n1 < 9007199254740992).
  { destruct Hn1 as [[H1 ->]|[H1 ->]].
    - rewrite Z.pow_0_r, Z.div_1_r. lia.
    - change (2 ^ 1) with 2. split; [apply Z.div_pos; lia|].
      apply Z.div_lt_upper_bound; lia. }
  pose proof (round_shift m2 (e' + n1) ltac:(lia) ltac:(lia)) as Hn2. cbv zeta in Hn2.
  set (n2 := Z.max 0 (fexp prec emax (Zdigits2 m2 + (e' + n1)) - (e' + n1))) in *.
  exists m2, n1, n2. rewrite xorb_false_r in Hres |- *.
  clearbody n1 n2.
  split; [exact Hn1|]. split; [lia|]. split; [exact Hm2|].
  split; [exact Hq|]. split; [exact He'|]. exact Hres.
Qed.

Lemma round_result_finite (s s' : bool) (m3 e3 : Z) (m : positive) (e : Z) :
  round_result s m3 e3 = S754_finite s' m e -> s = s' /\ m3 = Z.pos m /\ e3 = e.
Proof.
  unfold round_result. destruct m3; try discriminate.
  destruct (e3 <=? 971); try discriminate.
  intros H; injection H as -> -> ->. auto.
Qed.

Lemma div_bounds (a c : Z) : 0 < c -> c * (a / c) <= a < c * (a / c) + c.
Proof.
  intros Hc. pose proof (Z.mul_div_le a c Hc). pose proof (Z.mul_succ_div_gt a c Hc). lia.
Qed.

Lemma SFdiv_100_eq_1 (X : spec_float) :
  valid_binary X = true -> SF64div X SF100 = SF1 -> X = SF100.
Proof.
  intros Hv H. destruct X as [[]|[]| |s m e]; try discriminate H.
  cbn [SpecFloat.valid_binary] in Hv.
  destruct (SFdiv_100_bracket s m e Hv) as (m2 & n1 & n2 & Hn1 & Hn2 & Hm2 & Hq & He' & Hres).
  pose proof H as H0.
  rewrite Hres in H. apply round_result_finite in H. destruct H as (-> & Hm3 & He3).
  apply bounded_range in Hv. destruct Hv as (He & Hm & Hnorm).
  assert (Hs : Z.min 53 (e + 1120) = 53) by lia.
  rewrite Hs in *. clear Hs.
  change (2 ^ 53) with 9007199254740992 in *. unfold c100 in *.
  pose proof (div_bounds (Z.pos m * 9007199254740992) 7036874417766400 ltac:(lia)) as Hdiv.
  set (q := Z.pos m * 9007199254740992 / 7036874417766400) in *. clearbody q.
  assert (Hcases : e = -46 /\ (Z.pos m = 7036874417766400 \/ Z.pos m = 7036874417766401)).
  { destruct Hn1 as [[H1 ->]|[H1 ->]]; destruct Hn2 as [[H2 ->]|[H2 ->]];
      rewrite ?Z.pow_0_r, ?Z.div_1_r in *; change (2 ^ 1) with 2 in *;
      try pose proof (div_bounds q 2 ltac:(lia)); try pose proof (div_bounds m2 2 ltac:(lia)); lia. }
  destruct Hcases as [-> [Hc|Hc]]; injection Hc as ->.
  - reflexivity.
  - exfalso. clear -H0. vm_compute in H0. discriminate H0.
Qed.

(** *** Subtraction from [1.0] *)

Lemma iter_xO (d m : positive) : Z.pos (Pos.iter xO m d) = Z.pos m * 2 ^ Z.pos d.
Proof.
  induction d using Pos.peano_ind.
  - simpl. lia.
  - rewrite Pos.iter_succ, Pos2Z.inj_xO, IHd, Pos2Z.inj_succ, Z.pow_succ_r by lia. lia.
Qed.

Lemma shl_align_spec (m : positive) (e e' : Z) :
  Z.pos (fst (shl_align m e e')) = Z.pos m * 2 ^ Z.max 0 (e - e') /\
  snd (shl_align m e e') = Z.min e e'.
Proof.
  unfold shl_align. destruct (e' - e) as [|d|d] eqn:E; cbn [fst snd].
  - rewrite Z.max_l by lia. rewrite Z.pow_0_r. lia.
  - rewrite Z.max_l by lia. rewrite Z.pow_0_r. lia.
  - rewrite iter_xO. replace (Z.max 0 (e - e')) with (Z.pos d) by lia. lia.
Qed.

(** A right shift chosen by [fexp] never discards a whole positive mantissa. *)
Lemma shift_positive (q e : Z) :
  0 < q -> -1074 <= e ->
  0 < q / 2 ^ Z.max 0 (fexp prec emax (Zdigits2 q + e) - e).
Proof.
  intros Hq He. rewrite fexp64.
  pose proof (Zdigits2_bounds q Hq) as [Hlo _].
  set (d := Zdigits2 q) in *.
  assert (Hd : 1 <= d) by (unfold d; destruct q; simpl; lia).
  set (n := Z.max 0 (Z.max (d + e - 53) (-1074) - e)).
  assert (Hn : 0 <= n <= d - 1) by (unfold n; lia).
  assert (2 ^ n <= 2 ^ (d - 1)) by (apply Z.pow_le_mono_r; lia).
  apply Z.div_str_pos. split; [pow2_pos | lia].
Qed.

Lemma binary_round_aux_positive (s : bool) (q e : Z) (l : location) :
  0 < q -> -1074 <= e ->
  exists m3 e3 : Z, 0 < m3 /\ binary_round_aux prec emax s q e l = round_result s m3 e3.
Proof.
  intros Hq He.
  destruct (binary_round_aux_spec s q e l ltac:(lia)) as [m2 [Hm2 Hres]].
  cbv zeta in Hm2, Hres.
  pose proof (shift_positive q e Hq He) as H1.
  set (n1 := Z.max 0 (fexp prec emax (Zdigits2 q + e) - e)) in *.
  assert (Hm2' : 0 < m2) by lia.
  pose proof (shift_positive m2 (e + n1) Hm2' ltac:(lia)) as H2.
  eexists _, _. split; [exact H2 | exact Hres].
Qed.

Lemma round_result_not_zero (s b : bool) (m3 e3 : Z) :
  0 < m3 -> round_result s m3 e3 <> S754_zero b.
Proof.
  intros H. unfold round_result. destruct m3; try lia.
  destruct (e3 <=? 971); discriminate.
Qed.

Lemma binary_normalize_zero (M e : Z) (b : bool) :
  -1074 <= e -> binary_normalize prec emax M e false = S754_zero b -> M = 0.
Proof.
  intros He H. destruct M as [|m|m]; [reflexivity| |]; exfalso;
    unfold binary_normalize, binary_round in H;
    pose proof (shl_align_spec m e (fexp prec emax (Z.pos (digits2_pos m) + e))) as [_ Hs];
    destruct (shl_align m e (fexp prec emax (Z.pos (digits2_pos m) + e))) as [mz ez];
    cbn [snd] in Hs; rewrite fexp64 in Hs;
    match type of H with binary_round_aux _ _ ?s _ _ _ = _ =>
      destruct (binary_round_aux_positive s (Z.pos mz) ez loc_Exact ltac:(lia) ltac:(lia))
        as (m3 & e3 & Hpos & Hr)
    end;
    rewrite Hr in H; exact (round_result_not_zero _ _ _ _ Hpos H).
Qed.

Lemma SFeqb_zero (X : spec_float) :
  SFeqb X (S754_zero false) = true -> exists b, X = S754_zero b.
Proof.
  destruct X as [b|[]| |[] m e]; try discriminate. intros _. exists b. reflexivity.
Qed.

Lemma SFsub_1_eq_0 (X : spec_float) :
  valid_binary X = true ->
  SFeqb (SF64sub SF1 X) (S754_zero false) = true -> X = SF1.
Proof.
  intros Hv H. apply SFeqb_zero in H. destruct H as [b H].
  destruct X as [[]|[]| |s m e]; try discriminate H.
  cbn [SpecFloat.valid_binary] in Hv. apply bounded_range in Hv.
  destruct Hv as (He & Hm & Hnorm).
  unfold SF64sub, SF1, SFsub in H.
  apply binary_normalize_zero in H; [|lia].
  pose proof (shl_align_spec 4503599627370496 (-52) (Z.min (-52) e)) as [H1 _].
  pose proof (shl_align_spec m e (Z.min (-52) e)) as [H2 _].
  rewrite H1, H2 in H. clear H1 H2.
  destruct s; cbn [cond_Zopp] in H.
  - exfalso.
    assert (0 < 2 ^ Z.max 0 (-52 - Z.min (-52) e)) by pow2_pos.
    assert (0 < 2 ^ Z.max 0 (e - Z.min (-52) e)) by pow2_pos.
    set (P := 2 ^ Z.max 0 (-52 - Z.min (-52) e)) in *.
    set (P' := 2 ^ Z.max 0 (e - Z.min (-52) e)) in *. clearbody P P'. nia.
  - destruct (Z_lt_le_dec e (-52)) as [Hlt|Hge].
    + exfalso. rewrite Z.min_r in H by lia.
      replace (Z.max 0 (e - e)) with 0 in H by lia.
      rewrite Z.max_r in H by lia.
      assert (2 ^ 1 <= 2 ^ (-52 - e)) by (apply Z.pow_le_mono_r; lia).
      change (2 ^ 1) with 2 in *. rewrite Z.pow_0_r in H.
      set (P := 2 ^ (-52 - e)) in *. clearbody P. lia.
    + rewrite Z.min_l in H by lia.
      replace (Z.max 0 (-52 - -52)) with 0 in H by lia.
      rewrite Z.max_r in H by lia. rewrite Z.pow_0_r in H.
      assert (e = -52 \/ -52 < e) as [->|Hgt] by lia.
      * rewrite Z.pow_0_r in H.
        assert (m = 4503599627370496%positive) as -> by lia. reflexivity.
      * exfalso.
        assert (2 ^ 1 <= 2 ^ (e - -52)) by (apply Z.pow_le_mono_r; lia).
        change (2 ^ 1) with 2 in *. specialize (Hnorm ltac:(lia)).
        set (P := 2 ^ (e - -52)) in *. clearbody P. nia.
Qed.

Lemma Zdigits2_shift (m k : Z) : 0 < m -> 0 <= k -> Zdigits2 (m * 2 ^ k) = Zdigits2 m + k.
Proof.
  intros Hm Hk.
  assert (0 < 2 ^ k) by pow2_pos.
  rewrite !Zdigits2_log2 by nia. rewrite Z.log2_mul_pow2 by lia. lia.
Qed.

Lemma div_pow2_lt (q d n : Z) :
  0 <= q < 2 ^ d -> 0 <= n <= d -> q / 2 ^ n < 2 ^ (d - n).
Proof.
  intros Hq Hn.
  assert (0 < 2 ^ n) by pow2_pos.
  apply Z.div_lt_upper_bound; [assumption|].
  rewrite <- Z.pow_add_r by lia. replace (n + (d - n)) with d by lia. lia.
Qed.

Lemma binary_round_spec (s : bool) (m : positive) (e : Z) :
  -1074 <= e ->
  exists m3 e3 : Z,
    0 < m3 /\ e3 <= fexp prec emax (Zdigits2 (Z.pos m) + e) + 1 /\
    binary_round prec emax s m e = round_result s m3 e3.
Proof.
  intros He. unfold binary_round.
  change (Z.pos (digits2_pos m)) with (Zdigits2 (Z.pos m)).
  pose proof (Zdigits2_bounds (Z.pos m) ltac:(lia)) as Hd.
  set (d := Zdigits2 (Z.pos m)) in *.
  assert (Hd1 : 1 <= d) by (unfold d; simpl; lia).
  set (t := fexp prec emax (d + e)).
  assert (Ht : t = Z.max (d + e - 53) (-1074)) by (unfold t; apply fexp64).
  pose proof (shl_align_spec m e t) as [Hmz Hez].
  destruct (shl_align m e t) as [mz ez]. cbn [fst snd] in Hmz, Hez.
  assert (Hdz : Zdigits2 (Z.pos mz) = d + Z.max 0 (e - t))
    by (rewrite Hmz; apply Zdigits2_shift; lia).
  destruct (binary_round_aux_spec s (Z.pos mz) ez loc_Exact ltac:(lia)) as [m2 [Hm2 Hres]].
  cbv zeta in Hm2, Hres.
  pose proof (shift_positive (Z.pos mz) ez ltac:(lia) ltac:(lia)) as Hpos1.
  rewrite Hdz in Hm2, Hres, Hpos1.
  replace (d + Z.max 0 (e - t) + ez) with (d + e) in Hm2, Hres, Hpos1 by lia.
  fold t in Hm2, Hres, Hpos1.
  set (n1 := Z.max 0 (t - ez)) in *.
  assert (He1 : ez + n1 = t) by (unfold n1; lia).
  rewrite He1 in Hres.
  assert (Hq1 : Z.pos mz / 2 ^ n1 < 9007199254740992).
  { pose proof (Zdigits2_bounds (Z.pos mz) ltac:(lia)) as Hb. rewrite Hdz in Hb.
    change 9007199254740992 with (2 ^ 53).
    assert (Hn1 : 0 <= n1 <= d + Z.max 0 (e - t)) by (unfold n1; lia).
    pose proof (div_pow2_lt (Z.pos mz) (d + Z.max 0 (e - t)) n1 ltac:(lia) Hn1) as Hlt.
    assert (2 ^ (d + Z.max 0 (e - t) - n1) <= 2 ^ 53)
      by (apply Z.pow_le_mono_r; unfold n1; lia).
    lia. }
  assert (Hm2' : 0 < m2 < 18014398509481984) by lia.
  pose proof (shift_positive m2 t ltac:(lia) ltac:(lia)) as Hpos2.
  pose proof (round_shift m2 t ltac:(lia) ltac:(lia)) as Hn2. cbv zeta in Hn2.
  set (n2 := Z.max 0 (fexp prec emax (Zdigits2 m2 + t) - t)) in *.
  exists (m2 / 2 ^ n2), (t + n2). repeat split; [exact Hpos2 | lia | exact Hres].
Qed.

Lemma round_result_finite_cases (s : bool) (m3 e3 : Z) :
  0 <= m3 -> e3 <= 971 -> SFfinite (round_result s m3 e3) = true.
Proof.
  intros Hm He. unfold round_result. destruct m3; try lia; [reflexivity|].
  destruct (Z.leb_spec e3 971); [reflexivity | lia].
Qed.

Lemma SFdiv_100_exponent (sx : bool) (m : positive) (e : Z) :
  bounded prec emax m e = true ->
  exists m3 e3 : Z,
    0 <= m3 /\ e3 <= e + 2 /\
    SF64div (S754_finite sx m e) SF100 = round_result sx m3 e3.
Proof.
  intros Hb.
  destruct (SFdiv_100_bracket sx m e Hb) as (m2 & n1 & n2 & Hn1 & Hn2 & Hm2 & Hq & He' & Hres).
  apply bounded_range in Hb. destruct Hb as (He & _).
  exists (m2 / 2 ^ n2), (e + 46 - Z.min 53 (e + 1120) + n1 + n2).
  split; [|split; [lia | exact Hres]].
  apply Z.div_pos; [|pow2_pos].
  assert (0 <= Z.pos m * 2 ^ Z.min 53 (e + 1120) / Z.pos c100 / 2 ^ n1); [|lia].
  apply Z.div_pos; [lia | pow2_pos].
Qed.


Lemma round_result_small (s : bool) (m3 e3 : Z) :
  0 <= m3 -> e3 <= 900 -> small_exponent (round_result s m3 e3).
Proof.
  intros Hm He. unfold round_result. destruct m3; try lia; [exact I|].
  destruct (Z.leb_spec e3 971); [exact He | lia].
Qed.

Lemma SFsub_1_finite (X : spec_float) :
  valid_binary X = true -> small_exponent X -> SFfinite (SF64sub SF1 X) = true.
Proof.
  intros Hv Hs. destruct X as [[]|[]| |s m e]; try contradiction; try reflexivity.
  cbn [SpecFloat.valid_binary] in Hv. cbn [small_exponent] in Hs.
  apply bounded_range in Hv. destruct Hv as (He & Hm & _).
  unfold SF64sub, SF1, SFsub.
  pose proof (shl_align_spec 4503599627370496 (-52) (Z.min (-52) e)) as [H1 _].
  pose proof (shl_align_spec m e (Z.min (-52) e)) as [H2 _].
  rewrite H1, H2. clear H1 H2.
  set (e' := Z.min (-52) e).
  assert (He' : -1074 <= e' <= -52) by (unfold e'; lia).
  set (A := 4503599627370496 * 2 ^ Z.max 0 (-52 - e')).
  set (B := Z.pos m * 2 ^ Z.max 0 (e - e')).
  assert (HA : 0 < A <= 2 ^ (953 - e')).
  { unfold A. change 4503599627370496 with (2 ^ 52). rewrite <- Z.pow_add_r by lia.
    split; [pow2_pos | apply Z.pow_le_mono_r; lia]. }
  assert (HB : 0 < B < 2 ^ (953 - e')).
  { unfold B.
    assert (0 < 2 ^ Z.max 0 (e - e')) by pow2_pos.
    assert (2 ^ (53 + Z.max 0 (e - e')) <= 2 ^ (953 - e')) by (apply Z.pow_le_mono_r; lia).
    rewrite Z.pow_add_r in * by lia. change (2 ^ 53) with 9007199254740992 in *.
    split; nia. }
  assert (HP : 2 ^ (954 - e') = 2 * 2 ^ (953 - e')).
  { replace (954 - e') with (Z.succ (953 - e')) by lia. apply Z.pow_succ_r. lia. }
  assert (Hround : forall sg p, Z.pos p < 2 ^ (954 - e') ->
            SFfinite (binary_round prec emax sg p e') = true).
  { intros sg p Hp.
    destruct (binary_round_spec sg p e' ltac:(lia)) as (m3 & e3 & Hm3 & He3 & ->).
    pose proof (Zdigits2_le (Z.pos p) (954 - e') ltac:(lia) Hp) as Hd.
    rewrite fexp64 in He3. apply round_result_finite_cases; lia. }
  destruct (cond_Zopp false A - cond_Zopp s B) as [|p|p] eqn:EM;
    cbn [binary_normalize]; [reflexivity| |]; apply Hround;
    destruct s; cbn [cond_Zopp] in EM; lia.
Qed.

(** *** Comparisons, and the two water fractions *)

Lemma SFleb_0_cases (X : spec_float) :
  SFleb (S754_zero false) X = true ->
  (exists b, X = S754_zero b) \/ X = S754_infinity false \/
  exists m e, X = S754_finite false m e.
Proof.
  destruct X as [b|[]| |[] m e]; try discriminate; intros _; eauto.
Qed.

Lemma SFltb_100_exponent (m : positive) (e : Z) :
  SFltb (S754_finite false m e) SF100 = true -> e <= -46.
Proof.
  unfold SFltb, SF100, SFcompare. destruct (Z.compare_spec e (-46)); try lia; discriminate.
Qed.

Lemma SFeqb_100 (X : spec_float) : SFeqb X SF100 = true -> X = SF100.
Proof.
  destruct X as [[]|[]| |[] m e]; try discriminate.
  unfold SFeqb, SF100, SFcompare.
  destruct (Z.compare_spec e (-46)); try discriminate.
  destruct (Pos.compare_cont Eq m c100) eqn:Ec; try discriminate.
  intros _. apply Pos.compare_eq in Ec. subst. reflexivity.
Qed.

Lemma SFltb_not_eqb (X Y : spec_float) : SFltb X Y = true -> SFeqb X Y = false.
Proof. unfold SFltb, SFeqb. destruct (SFcompare X Y) as [[]|]; congruence. Qed.

(** The guard of line 21 fires exactly at [final_concentration == 100]. *)
Lemma guard_iff (x : float) : (1 - x / 100 =? 0)%float = (x =? 100)%float.
Proof.
  rewrite !FloatAxioms.eqb_spec, sub_spec, div_spec, Prim2SF_100, Prim2SF_1.
  change (Prim2SF 0%float) with (S754_zero false).
  destruct (SFeqb (Prim2SF x) SF100) eqn:E.
  - apply SFeqb_100 in E. rewrite E. reflexivity.
  - destruct (SFeqb _ (S754_zero false)) eqn:E2; [|reflexivity].
    apply SFsub_1_eq_0 in E2.
    + apply SFdiv_100_eq_1 in E2; [|apply Prim2SF_valid].
      rewrite E2 in E. discriminate E.
    + rewrite <- Prim2SF_100, <- div_spec. apply Prim2SF_valid.
Qed.

Lemma water_fraction_finite (x : float) :
  (0 <=? x)%float = true -> (x <? 100)%float = true ->
  SFfinite (Prim2SF (1 - x / 100)%float) = true.
Proof.
  rewrite FloatAxioms.leb_spec, FloatAxioms.ltb_spec, sub_spec, div_spec, Prim2SF_100, Prim2SF_1.
  change (Prim2SF 0%float) with (S754_zero false).
  intros H0 H100.
  assert (Hvz : valid_binary (SF64div (Prim2SF x) SF100) = true)
    by (rewrite <- Prim2SF_100, <- div_spec; apply Prim2SF_valid).
  pose proof (Prim2SF_valid x) as Hv.
  apply SFsub_1_finite; [exact Hvz|].
  destruct (SFleb_0_cases _ H0) as [[b E]|[E|(m & e & E)]]; rewrite E in *.
  - destruct b; exact I.
  - discriminate H100.
  - apply SFltb_100_exponent in H100.
    destruct (SFdiv_100_exponent false m e Hv) as (m3 & e3 & Hm3 & He3 & ->).
    apply round_result_small; lia.
Qed.

End Binary64.

Import Binary64.

(** ** The program on binary64 *)

Close Scope Z_scope.
#[local] Set Warnings "-inexact-float".

(** On floats the function takes one of two paths, chosen by
    [final_concentration == 100]; no division raises. *)
Lemma calculate_mass_balance_binary64 (m1 x1 x3 : float) (log : list (st_call float)) :
  calculate_mass_balance m1 x1 x3 log =
  if (x3 =? 100)%float
  then (Returned (None, None), log ++ [Call error [Text error_message]])
  else (Returned (Some (m1 * (1 - x1 / 100) / (1 - x3 / 100))%float,
                  Some (m1 * (1 - x1 / 100) / (1 - x3 / 100) - m1)%float), log).
Proof.
  unfold calculate_mass_balance, truediv, bind, ret, raise, st. cbn.
  rewrite (guard_iff x3).
  destruct (x3 =? 100)%float; reflexivity.
Qed.

Lemma zero_cases (a : float) : (a =? 0)%float = true -> exists b, Prim2SF a = S754_zero b.
Proof. rewrite FloatAxioms.eqb_spec. apply SFeqb_zero. Qed.

Lemma is_zero_eqb (a : float) (b : bool) : Prim2SF a = S754_zero b -> (a =? 0)%float = true.
Proof. intros E. rewrite FloatAxioms.eqb_spec, E. destruct b; reflexivity. Qed.

Lemma zero_mul_finite (a y : float) :
  (a =? 0)%float = true -> SFfinite (Prim2SF y) = true -> (a * y =? 0)%float = true.
Proof.
  intros Ha Hy. destruct (zero_cases a Ha) as [b Eb].
  destruct (Prim2SF y) as [sy|sy| |sy my ey] eqn:Ey; try discriminate Hy.
  - apply (is_zero_eqb _ (xorb b sy)). rewrite mul_spec, Eb, Ey. reflexivity.
  - apply (is_zero_eqb _ (xorb b sy)). rewrite mul_spec, Eb, Ey. reflexivity.
Qed.

Lemma zero_div_nonzero (a y : float) :
  (a =? 0)%float = true -> SFfinite (Prim2SF y) = true -> (y =? 0)%float = false ->
  (a / y =? 0)%float = true.
Proof.
  intros Ha Hy Hn. destruct (zero_cases a Ha) as [b Eb].
  rewrite FloatAxioms.eqb_spec in Hn.
  destruct (Prim2SF y) as [sy|sy| |sy my ey] eqn:Ey; try discriminate Hy.
  - destruct sy; discriminate Hn.
  - apply (is_zero_eqb _ (xorb b sy)). rewrite div_spec, Eb, Ey. reflexivity.
Qed.

Lemma zero_sub_zero (a b : float) :
  (a =? 0)%float = true -> (b =? 0)%float = true -> (a - b =? 0)%float = true.
Proof.
  intros Ha Hb. destruct (zero_cases a Ha) as [sa Ea]. destruct (zero_cases b Hb) as [sb Eb].
  rewrite FloatAxioms.eqb_spec, sub_spec, Ea, Eb. destruct sa, sb; reflexivity.
Qed.

Lemma ltb_100_not_eqb (x : float) : (x <? 100)%float = true -> (x =? 100)%float = false.
Proof. rewrite FloatAxioms.ltb_spec, FloatAxioms.eqb_spec. apply SFltb_not_eqb. Qed.

Lemma leb_99_9_not_eqb (x : float) : (x <=? 99.9)%float = true -> (x =? 100)%float = false.
Proof.
  rewrite FloatAxioms.leb_spec, FloatAxioms.eqb_spec, Prim2SF_100. intros H.
  destruct (SFeqb (Prim2SF x) SF100) eqn:E; [|reflexivity].
  apply SFeqb_100 in E. rewrite E in H. discriminate H.
Qed.

Lemma calls_error_app {F : Type} (l1 l2 : list (st_call F)) :
  calls_error (l1 ++ l2) = calls_error l1 || calls_error l2.
Proof. apply existsb_app. Qed.

(** The result column adds an [st.error] call to the log only if line 85
    does: never when [x3_input != 100]. *)
Lemma results_column_no_error (submit_button : bool) (m1_input x1_input x3_input : float)
    (log : list (st_call float)) :
  (x3_input =? 100)%float = false ->
  calls_error (snd (results_column submit_button m1_input x1_input x3_input log)) =
  calls_error log.
Proof.
  intros Hne. unfold results_column, results_column_with, bind, st, ret.
  destruct submit_button; [destruct (leb x3_input x1_input)|].
  - cbn -[calls_error]. rewrite !calls_error_app. cbn. rewrite !orb_false_r. reflexivity.
  - rewrite calculate_mass_balance_binary64, Hne.
    unfold show_results, truediv, bind, st, ret. cbn -[calls_error].
    rewrite !calls_error_app. cbn. rewrite !orb_false_r. reflexivity.
  - cbn -[calls_error]. rewrite !calls_error_app. cbn. rewrite !orb_false_r. reflexivity.
Qed.

(** The scenarios of the specification, evaluated. *)
Example scenario_100_0_50 :
  calculate_mass_balance 100%float 0%float 50%float [] =
  (Returned (Some 200%float, Some 100%float), []).
Proof. reflexivity. Qed.

Example scenario_50_7_10 :
  calculate_mass_balance 50%float 7%float 10%float [] =
  (Returned (Some 51.666666666666664%float, Some 1.6666666666666643%float), []).
Proof. reflexivity. Qed.

Example scenario_10_7_7 :
  snd (results_column true 10%float 7%float 7%float []) =
  [Call header [Text "📊 Resultados del Cálculo"%string];
   Call warning [Text warning_message];
   Call markdown [Text "---"%string];
   Call image [Text "https://i.imgur.com/gK5L0a4.jpeg"%string;
               Text "Diagrama de referencia del problema de balance de masa."%string]].
Proof. reflexivity. Qed.

(** ** Rounding errors

    The operations of [SpecFloat] on the exact values of their operands.
    With [scaled X] the value of [X] in units of [2^-1074], each operation
    returns the exact result up to one unit in the last place, which is at
    most [2^-52] of the result, or [2^-1074] for a subnormal one. *)

Module Rounding.

Open Scope Z_scope.

(** *** Rounding, by exact values

    What [binary_round_aux] and [binary_round] return, as a mantissa and an
    exponent bracketed by the number that is rounded: rounding is faithful,
    the result is one of the two neighbours of the exact value. *)

(** The two rounding steps leave the mantissa unchanged when no shift is due
    and the location is exact. *)
Lemma binary_round_aux_exact (s : bool) (q e : Z) :
  0 <= q -> fexp prec emax (Zdigits2 q + e) <= e ->
  binary_round_aux prec emax s q e loc_Exact = round_result s q e.
Proof.
  intros Hq Hf. unfold binary_round_aux, shr_fexp.
  assert (Hn : fexp prec emax (Zdigits2 q + e) - e <= 0) by lia.
  destruct (fexp prec emax (Zdigits2 q + e) - e) as [|p|p] eqn:E; try lia;
    cbn [shr shr_record_of_loc shr_m loc_of_shr_record round_nearest_even];
    rewrite E; reflexivity.
Qed.

(** Faithful rounding: the result is within one unit of its last place. *)
Lemma binary_round_aux_value (s : bool) (q e : Z) (l : location) :
  0 <= q ->
  exists m3 e3 : Z,
    binary_round_aux prec emax s q e l = round_result s m3 e3 /\
    0 <= m3 /\ e <= e3 /\ -1074 <= e3 /\
    (m3 - 1) * 2 ^ (e3 - e) <= q /\ q + 1 <= (m3 + 1) * 2 ^ (e3 - e).
Proof.
  intros Hq.
  destruct (binary_round_aux_spec s q e l Hq) as [m2 [Hm2 Hres]].
  cbv zeta in Hm2, Hres.
  set (n1 := Z.max 0 (fexp prec emax (Zdigits2 q + e) - e)) in *.
  set (n2 := Z.max 0 (fexp prec emax (Zdigits2 m2 + (e + n1)) - (e + n1))) in *.
  assert (Hn1 : 0 <= n1) by (unfold n1; lia).
  assert (Hn2 : 0 <= n2) by (unfold n2; lia).
  assert (He1 : -1074 <= e + n1) by (unfold n1; rewrite fexp64; lia).
  assert (HP1 : 0 < 2 ^ n1) by pow2_pos.
  assert (HP2 : 0 < 2 ^ n2) by pow2_pos.
  pose proof (div_bounds q (2 ^ n1) HP1) as Hd1.
  pose proof (div_bounds m2 (2 ^ n2) HP2) as Hd2.
  exists (m2 / 2 ^ n2), (e + n1 + n2).
  replace (e + n1 + n2 - e) with (n1 + n2) by lia.
  rewrite Z.pow_add_r by lia.
  assert (H1 : 0 <= q / 2 ^ n1) by (apply Z.div_pos; lia).
  assert (H3 : 0 <= m2 / 2 ^ n2) by (apply Z.div_pos; lia).
  clearbody n1 n2.
  set (P1 := 2 ^ n1) in *. set (P2 := 2 ^ n2) in *.
  set (a := q / P1) in *. set (b := m2 / P2) in *.
  clearbody P1 P2 a b.
  split; [exact Hres|]. split; [exact H3|]. split; [lia|]. split; [lia|].
  split; nia.
Qed.

(** A mantissa that has to be shifted right keeps 53 digits: the result is
    a normal number, one unit of its last place from the exact value. *)
Lemma binary_round_aux_normal (s : bool) (q e : Z) (l : location) :
  0 < q -> -1074 <= e -> e < fexp prec emax (Zdigits2 q + e) ->
  exists m3 e3 : Z,
    binary_round_aux prec emax s q e l = round_result s m3 e3 /\
    4503599627370496 <= m3 /\ e < e3 /\
    (m3 - 1) * 2 ^ (e3 - e) <= q /\ q + 1 <= (m3 + 1) * 2 ^ (e3 - e).
Proof.
  intros Hq He Hf.
  destruct (binary_round_aux_spec s q e l ltac:(lia)) as [m2 [Hm2 Hres]].
  cbv zeta in Hm2, Hres.
  pose proof (Zdigits2_bounds q Hq) as Hd.
  rewrite fexp64 in Hf. repeat rewrite fexp64 in Hm2. repeat rewrite fexp64 in Hres.
  set (d := Zdigits2 q) in *.
  assert (Hn1 : Z.max 0 (Z.max (d + e - 53) (-1074) - e) = d - 53) by (clear -He Hf; lia).
  rewrite !Hn1 in Hm2, Hres. clear Hn1.
  assert (Hd53 : 53 < d) by (clear -He Hf; lia).
  assert (Hlo : 4503599627370496 <= q / 2 ^ (d - 53)).
  { apply Z.div_le_lower_bound; [pow2_pos|].
    change 4503599627370496 with (2 ^ 52). rewrite <- Z.pow_add_r by lia.
    replace (d - 53 + 52) with (d - 1) by lia. apply Hd. }
  assert (Hhi : q / 2 ^ (d - 53) < 9007199254740992).
  { pose proof (div_pow2_lt q d (d - 53) ltac:(split; [lia | apply Hd]) ltac:(lia)) as H.
    replace (d - (d - 53)) with 53 in H by lia. exact H. }
  assert (Hm2r : 0 <= m2 < 18014398509481984) by (clear -Hm2 Hlo Hhi; lia).
  pose proof (round_shift m2 (e + (d - 53)) Hm2r ltac:(lia)) as Hn2. cbv zeta in Hn2.
  rewrite fexp64 in Hn2.
  set (n2 := Z.max 0 (Z.max (Zdigits2 m2 + (e + (d - 53)) - 53) (-1074) - (e + (d - 53)))) in *.
  assert (HP1 : 0 < 2 ^ (d - 53)) by pow2_pos.
  pose proof (div_bounds q (2 ^ (d - 53)) HP1) as Hd1.
  exists (m2 / 2 ^ n2), (e + (d - 53) + n2).
  split; [exact Hres|].
  replace (e + (d - 53) + n2 - e) with (d - 53 + n2) by lia.
  assert (Hn2' : 0 <= n2) by (unfold n2; lia).
  rewrite Z.pow_add_r by lia.
  clearbody n2.
  set (P1 := 2 ^ (d - 53)) in *. set (a := q / P1) in *.
  assert (Hd53' : 0 < d - 53) by lia.
  clearbody P1 a. clear Hd Hd53.
  destruct Hn2 as [[H2 ->]|[H2 ->]].
  - rewrite Z.pow_0_r, Z.div_1_r.
    split; [lia|]. split; [lia|]. split; nia.
  - change (2 ^ 1) with 2.
    assert (Hm : m2 = 9007199254740992) by lia. subst m2.
    change (9007199254740992 / 2) with 4503599627370496.
    split; [lia|]. split; [lia|]. split; nia.
Qed.

(** [binary_round] is exact, or gives a normal number within one unit of its
    last place.  Values are in units of [2^-1074]. *)
Lemma binary_round_value (s : bool) (m : positive) (e : Z) :
  -1074 <= e ->
  exists m3 e3 : Z,
    binary_round prec emax s m e = round_result s m3 e3 /\
    0 < m3 /\ -1074 <= e3 /\
    (m3 * 2 ^ (e3 + 1074) = Z.pos m * 2 ^ (e + 1074) \/
     (4503599627370496 <= m3 /\
      Z.abs (m3 * 2 ^ (e3 + 1074) - Z.pos m * 2 ^ (e + 1074)) <= 2 ^ (e3 + 1074))).
Proof.
  intros He. unfold binary_round.
  change (Z.pos (digits2_pos m)) with (Zdigits2 (Z.pos m)).
  set (d := Zdigits2 (Z.pos m)).
  assert (Hd1 : 1 <= d) by (unfold d; simpl; lia).
  set (t := fexp prec emax (d + e)).
  assert (Ht : t = Z.max (d + e - 53) (-1074)) by (unfold t; apply fexp64).
  pose proof (shl_align_spec m e t) as [Hmz Hez].
  destruct (shl_align m e t) as [mz ez]. cbn [fst snd] in Hmz, Hez.
  destruct (Z_le_gt_dec t e) as [Hle|Hgt].
  - (* left shift, or none: exact *)
    assert (Hdz : Zdigits2 (Z.pos mz) = d + (e - t)).
    { rewrite Hmz, Z.max_r by lia. apply Zdigits2_shift; lia. }
    subst ez. rewrite Z.min_r by lia.
    rewrite binary_round_aux_exact.
    + exists (Z.pos mz), t. split; [reflexivity|]. split; [lia|]. split; [lia|]. left.
      rewrite Hmz, Z.max_r by lia. rewrite <- Z.mul_assoc, <- Z.pow_add_r by lia.
      f_equal. f_equal. lia.
    + lia.
    + rewrite Hdz. replace (d + (e - t) + t) with (d + e) by lia. fold t. lia.
  - (* right shift: normal result *)
    subst ez. rewrite Z.min_l by lia.
    assert (Hmz' : Z.pos mz = Z.pos m) by (rewrite Hmz, Z.max_l by lia; rewrite Z.pow_0_r; lia).
    rewrite Hmz'.
    destruct (binary_round_aux_normal s (Z.pos m) e loc_Exact ltac:(lia) He)
      as (m3 & e3 & Hres & Hm3 & He3 & Hlo & Hhi).
    { fold d. fold t. lia. }
    exists m3, e3. split; [exact Hres|]. split; [lia|]. split; [lia|]. right.
    split; [exact Hm3|].
    replace (e3 + 1074) with ((e3 - e) + (e + 1074)) by lia.
    rewrite Z.pow_add_r by lia.
    assert (0 < 2 ^ (e + 1074)) by pow2_pos.
    set (U := 2 ^ (e3 - e)) in *. set (W := 2 ^ (e + 1074)) in *.
    clearbody U W. clear -Hlo Hhi H. nia.
Qed.

(** *** Addition and subtraction *)
Lemma round_result_scaled (s : bool) (m3 e3 : Z) :
  0 <= m3 -> SFfinite (round_result s m3 e3) = true ->
  scaled (round_result s m3 e3) = cond_Zopp s (m3 * 2 ^ (e3 + 1074)).
Proof.
  intros Hm. unfold round_result. destruct m3 as [|p|p]; try lia.
  - intros _. destruct s; reflexivity.
  - destruct (e3 <=? 971); [reflexivity | discriminate].
Qed.

Lemma binary_normalize_value (M e : Z) :
  -1074 <= e -> SFfinite (binary_normalize prec emax M e false) = true ->
  4503599627370496 * Z.abs (scaled (binary_normalize prec emax M e false) - M * 2 ^ (e + 1074))
  <= Z.abs (scaled (binary_normalize prec emax M e false)).
Proof.
  intros He Hfin.
  assert (HW : 0 < 2 ^ (e + 1074)) by pow2_pos.
  destruct M as [|p|p]; cbn [binary_normalize] in *.
  - cbn. lia.
  - destruct (binary_round_value false p e He) as (m3 & e3 & Hres & Hm3 & He3 & Hval).
    rewrite Hres in *. rewrite round_result_scaled by (assumption || lia).
    cbn [cond_Zopp].
    assert (HU : 0 < 2 ^ (e3 + 1074)) by pow2_pos.
    set (U := 2 ^ (e3 + 1074)) in *. set (W := 2 ^ (e + 1074)) in *. clearbody U W.
    destruct Hval as [Hex|[Hn Herr]]; [lia | nia].
  - destruct (binary_round_value true p e He) as (m3 & e3 & Hres & Hm3 & He3 & Hval).
    rewrite Hres in *. rewrite round_result_scaled by (assumption || lia).
    cbn [cond_Zopp].
    assert (HU : 0 < 2 ^ (e3 + 1074)) by pow2_pos.
    change (Z.neg p) with (- Z.pos p).
    set (U := 2 ^ (e3 + 1074)) in *. set (W := 2 ^ (e + 1074)) in *. clearbody U W.
    destruct Hval as [Hex|[Hn Herr]]; [lia | nia].
Qed.

Lemma shl_align_scaled (m : positive) (e ez : Z) :
  -1074 <= ez <= e ->
  Z.pos (fst (shl_align m e ez)) * 2 ^ (ez + 1074) = Z.pos m * 2 ^ (e + 1074).
Proof.
  intros H. destruct (shl_align_spec m e ez) as [-> _].
  rewrite Z.max_r by lia. rewrite <- Z.mul_assoc, <- Z.pow_add_r by lia.
  f_equal. f_equal. lia.
Qed.

Lemma cond_Zopp_mul (s : bool) (a b : Z) : cond_Zopp s a * b = cond_Zopp s (a * b).
Proof. destruct s; cbn [cond_Zopp]; lia. Qed.

Lemma valid_exponent (s : bool) (m : positive) (e : Z) :
  valid_binary (S754_finite s m e) = true -> -1074 <= e.
Proof. intros H. apply bounded_range in H. lia. Qed.

(** Subtraction and addition of finite numbers round the exact result with
    a relative error of at most [2^-52]. *)
Lemma SFsub_value (X Y : spec_float) :
  valid_binary X = true -> valid_binary Y = true ->
  SFfinite X = true -> SFfinite Y = true -> SFfinite (SF64sub X Y) = true ->
  4503599627370496 * Z.abs (scaled (SF64sub X Y) - (scaled X - scaled Y))
  <= Z.abs (scaled (SF64sub X Y)).
Proof.
  intros HvX HvY HX HY HR.
  destruct X as [sx|sx| |sx mx ex]; try discriminate HX;
  destruct Y as [sy|sy| |sy my ey]; try discriminate HY.
  - destruct sx, sy; cbn; lia.
  - unfold SF64sub, SFsub, scaled.
    generalize (Z.pos my * 2 ^ (ey + 1074)). intros W.
    destruct sy; cbn [negb cond_Zopp]; lia.
  - unfold SF64sub, SFsub, scaled.
    generalize (Z.pos mx * 2 ^ (ex + 1074)). intros W.
    destruct sx; cbn [cond_Zopp]; lia.
  - apply valid_exponent in HvX, HvY.
    unfold SF64sub, SFsub in *.
    pose proof (binary_normalize_value
      (cond_Zopp sx (Z.pos (fst (shl_align mx ex (Z.min ex ey)))) -
       cond_Zopp sy (Z.pos (fst (shl_align my ey (Z.min ex ey)))))
      (Z.min ex ey) ltac:(lia) HR) as Hv.
    rewrite Z.mul_sub_distr_r, !cond_Zopp_mul, !shl_align_scaled in Hv by lia.
    exact Hv.
Qed.



Lemma SFsub_finite (X Y : spec_float) :
  SFfinite (SF64sub X Y) = true -> SFfinite X = true /\ SFfinite Y = true.
Proof.
  destruct X as [[]|[]| |sx mx ex], Y as [[]|[]| |sy my ey]; cbn; try discriminate; auto.
Qed.

(** *** Division and multiplication *)

(** Faithful rounding, with the exponent of a result that rounds to zero. *)
Lemma binary_round_aux_value0 (s : bool) (q e : Z) (l : location) :
  0 <= q ->
  exists m3 e3 : Z,
    binary_round_aux prec emax s q e l = round_result s m3 e3 /\
    0 <= m3 /\ e <= e3 /\ -1074 <= e3 /\
    (m3 - 1) * 2 ^ (e3 - e) <= q /\ q + 1 <= (m3 + 1) * 2 ^ (e3 - e) /\
    (m3 = 0 -> e3 = Z.max e (-1074)).
Proof.
  intros Hq.
  destruct (binary_round_aux_spec s q e l Hq) as [m2 [Hm2 Hres]].
  cbv zeta in Hm2, Hres.
  repeat rewrite fexp64 in Hm2. repeat rewrite fexp64 in Hres.
  set (dq := Zdigits2 q) in *.
  set (n1 := Z.max 0 (Z.max (dq + e - 53) (-1074) - e)) in *.
  set (n2 := Z.max 0 (Z.max (Zdigits2 m2 + (e + n1) - 53) (-1074) - (e + n1))) in *.
  assert (Hn1 : 0 <= n1) by (unfold n1; lia).
  assert (Hn2 : 0 <= n2) by (unfold n2; lia).
  assert (He1 : -1074 <= e + n1) by (unfold n1; lia).
  assert (HP1 : 0 < 2 ^ n1) by pow2_pos.
  assert (HP2 : 0 < 2 ^ n2) by pow2_pos.
  pose proof (div_bounds q (2 ^ n1) HP1) as Hd1.
  pose proof (div_bounds m2 (2 ^ n2) HP2) as Hd2.
  assert (H1 : 0 <= q / 2 ^ n1) by (apply Z.div_pos; lia).
  assert (H3 : 0 <= m2 / 2 ^ n2) by (apply Z.div_pos; lia).
  assert (Hzero : m2 / 2 ^ n2 = 0 -> e + n1 + n2 = Z.max e (-1074)).
  { intros Hz.
    assert (Hm20 : m2 = 0).
    { destruct (Z.eq_dec m2 0) as [|Hne]; [assumption|exfalso].
      pose proof (shift_positive m2 (e + n1) ltac:(lia) He1) as Hp.
      rewrite fexp64 in Hp. fold n2 in Hp. lia. }
    assert (Hn20 : n2 = 0) by (unfold n2; rewrite Hm20; cbn [Zdigits2]; lia).
    assert (Hq0 : q / 2 ^ n1 = 0) by lia.
    destruct (Z_le_gt_dec (dq + e - 53) (Z.max e (-1074))) as [Hs|Hs];
      [unfold n1; lia|exfalso].
    assert (Hqpos : 0 < q).
    { destruct (Z.eq_dec q 0) as [Hq0'|]; [|lia].
      unfold dq in Hs. rewrite Hq0' in Hs. cbn [Zdigits2] in Hs. lia. }
    pose proof (Zdigits2_bounds q Hqpos) as Hd. fold dq in Hd.
    assert (Hn1' : n1 = dq - 53) by (unfold n1; lia).
    assert (Hlo : 4503599627370496 <= q / 2 ^ n1).
    { rewrite Hn1'. apply Z.div_le_lower_bound; [pow2_pos|].
      change 4503599627370496 with (2 ^ 52). rewrite <- Z.pow_add_r by lia.
      replace (dq - 53 + 52) with (dq - 1) by lia. apply Hd. }
    lia. }
  exists (m2 / 2 ^ n2), (e + n1 + n2).
  replace (e + n1 + n2 - e) with (n1 + n2) by lia.
  rewrite Z.pow_add_r by lia.
  split; [exact Hres|]. split; [exact H3|]. split; [lia|]. split; [lia|].
  split; [|split; [|exact Hzero]].
  - clear Hzero Hres. clearbody n1 n2.
    set (P1 := 2 ^ n1) in *. set (P2 := 2 ^ n2) in *.
    set (a := q / P1) in *. set (b := m2 / P2) in *.
    clearbody P1 P2 a b. nia.
  - clear Hzero Hres. clearbody n1 n2.
    set (P1 := 2 ^ n1) in *. set (P2 := 2 ^ n2) in *.
    set (a := q / P1) in *. set (b := m2 / P2) in *.
    clearbody P1 P2 a b. nia.
Qed.

(** The quotient and exponent that [SFdiv] hands to the rounding steps. *)
Lemma SFdiv_core_value (mx my : positive) (ex ey : Z) :
  bounded prec emax mx ex = true -> bounded prec emax my ey = true ->
  exists q e' l,
    SFdiv_core_binary prec emax (Z.pos mx) ex (Z.pos my) ey = (q, e', l) /\
    0 <= q /\ e' <= ex - ey /\ -2148 <= e' + ey /\
    q * Z.pos my <= Z.pos mx * 2 ^ (ex - ey - e') < (q + 1) * Z.pos my /\
    (-1074 < e' -> 0 < q).
Proof.
  intros Hx Hy. apply bounded_spec in Hx, Hy.
  destruct Hx as (Hdx & Hrx & Hex & Hcx). destruct Hy as (Hdy & Hry & Hey & Hcy).
  unfold SFdiv_core_binary. rewrite fexp64.
  set (d1 := Zdigits2 (Z.pos mx)) in *. set (d2 := Zdigits2 (Z.pos my)) in *.
  set (e' := Z.min (Z.max (d1 + ex - (d2 + ey) - 53) (-1074)) (ex - ey)).
  set (s := ex - ey - e').
  assert (Hs : 0 <= s) by (clear; unfold s, e'; lia).
  assert (Hm' : match s with
                | Z0 => Z.pos mx
                | Zpos _ => Z.shiftl (Z.pos mx) s
                | Zneg _ => 0
                end = Z.pos mx * 2 ^ s).
  { clearbody s. destruct s as [|p|p].
    - change (2 ^ 0) with 1. rewrite Z.mul_1_r. reflexivity.
    - apply Z.shiftl_mul_pow2. clear. lia.
    - clear -Hs. lia. }
  rewrite Hm', div_eucl_div_mod.
  assert (HS : 0 < 2 ^ s) by pow2_pos.
  pose proof (div_bounds (Z.pos mx * 2 ^ s) (Z.pos my) ltac:(lia)) as Hdiv.
  eexists _, _, _. split; [reflexivity|].
  split; [apply Z.div_pos; [apply Z.mul_nonneg_nonneg|]; clear -HS; lia|].
  split; [clear -Hex Hey Hrx Hry; unfold e'; lia|].
  split; [clear -Hex Hey Hrx Hry; unfold e'; lia|].
  split.
  { clear -Hdiv. fold s. set (A := Z.pos mx * 2 ^ s) in *. set (q := A / Z.pos my) in *.
    clearbody A q. nia. }
  intros He'.
  assert (Hs' : s = 53 - d1 + d2) by (clear -He' Hex Hey Hrx Hry; unfold s, e' in *; lia).
  apply Z.div_str_pos. split; [lia|].
  assert (H1 : 2 ^ (d1 - 1) * 2 ^ s <= Z.pos mx * 2 ^ s)
    by (apply Z.mul_le_mono_nonneg_r; [clear -HS; lia | apply Hdx]).
  rewrite <- Z.pow_add_r in H1 by (clear -Hs Hrx; lia).
  assert (H2 : 2 ^ d2 <= 2 ^ (d1 - 1 + s)) by (apply Z.pow_le_mono_r; clear -Hs' Hrx Hry; lia).
  clear -H1 H2 Hdy. set (A := Z.pos mx * 2 ^ s) in *. set (B := 2 ^ (d1 - 1 + s)) in *.
  set (C := 2 ^ d2) in *. clearbody A B C. lia.
Qed.

(** The unit in the last place of a valid rounded result is at most
    [2^-52] of its magnitude, or is the smallest subnormal. *)
Lemma round_result_ulp (s : bool) (m3 e3 : Z) :
  0 <= m3 -> -1074 <= e3 -> (m3 = 0 -> e3 = -1074) ->
  SFfinite (round_result s m3 e3) = true ->
  valid_binary (round_result s m3 e3) = true ->
  4503599627370496 * 2 ^ (e3 + 1074) <=
  m3 * 2 ^ (e3 + 1074) + 4503599627370496.
Proof.
  intros Hm He Hz Hfin Hv.
  assert (HU : 0 < 2 ^ (e3 + 1074)) by pow2_pos.
  destruct (Z.eq_dec e3 (-1074)) as [->|Hne].
  - change (2 ^ (-1074 + 1074)) with 1. lia.
  - assert (Hpos : 0 < m3) by lia.
    unfold round_result in Hfin, Hv. destruct m3 as [|p|p]; try lia.
    destruct (e3 <=? 971); [|discriminate Hfin].
    cbn [SpecFloat.valid_binary] in Hv. apply bounded_range in Hv.
    destruct Hv as (_ & _ & Hn). specialize (Hn ltac:(lia)).
    set (U := 2 ^ (e3 + 1074)) in *. clearbody U. nia.
Qed.

Lemma scaled_finite (s : bool) (m : positive) (e : Z) :
  scaled (S754_finite s m e) = cond_Zopp s (Z.pos m * 2 ^ (e + 1074)).
Proof. reflexivity. Qed.

Lemma abs_cond_Zopp (s : bool) (a : Z) : Z.abs (cond_Zopp s a) = Z.abs a.
Proof. destruct s; cbn [cond_Zopp]; lia. Qed.

Lemma SFdiv_value (X Y : spec_float) :
  valid_binary X = true -> valid_binary Y = true -> valid_binary (SF64div X Y) = true ->
  SFfinite X = true -> SFfinite Y = true -> SFfinite (SF64div X Y) = true ->
  exists u : Z,
    0 < u /\
    4503599627370496 * u <= Z.abs (scaled (SF64div X Y)) + 4503599627370496 /\
    Z.abs (scaled (SF64div X Y) * scaled Y - scaled X * 2 ^ 1074) <= u * Z.abs (scaled Y).
Proof.
  intros HvX HvY HvR HX HY HR.
  destruct X as [sx|sx| |sx mx ex]; try discriminate HX;
  destruct Y as [sy|sy| |sy my ey]; try discriminate HY; try discriminate HR.
  - exists 1. cbn [SF64div SFdiv scaled]. lia.
  - cbn [SpecFloat.valid_binary] in HvX, HvY.
    destruct (SFdiv_core_value mx my ex ey HvX HvY)
      as (q & e' & l & Hcore & Hq & Hs & Hc & Hdiv & Hqpos).
    unfold SF64div, SFdiv in *. rewrite Hcore in *.
    destruct (binary_round_aux_value0 (xorb sx sy) q e' l Hq)
      as (m3 & e3 & Hres & Hm3 & Hee & He3 & Hlo & Hhi & Hzero).
    rewrite Hres in *.
    apply bounded_range in HvX, HvY.
    exists (2 ^ (e3 + 1074)).
    assert (Hz3 : m3 = 0 -> e3 = -1074).
    { intros Hm0. specialize (Hzero Hm0).
      destruct (Z_le_gt_dec e' (-1074)) as [Hle|Hgt]; [lia|exfalso].
      specialize (Hqpos ltac:(lia)).
      replace (e3 - e') with 0 in Hhi by lia. rewrite Hm0 in Hhi.
      change (2 ^ 0) with 1 in Hhi. lia. }
    split; [pow2_pos|]. split.
    + rewrite round_result_scaled, abs_cond_Zopp by assumption.
      pose proof (round_result_ulp (xorb sx sy) m3 e3 Hm3 He3 Hz3 HR HvR) as Hu.
      assert (0 < 2 ^ (e3 + 1074)) by pow2_pos.
      set (U := 2 ^ (e3 + 1074)) in *. clearbody U. clear -Hu Hm3 H. nia.
    + rewrite round_result_scaled, !scaled_finite by assumption.
      rewrite abs_cond_Zopp.
      (* common scale *)
      set (c := e' + ey + 2148).
      assert (Hc0 : 0 <= c) by (unfold c; lia).
      assert (E1 : 2 ^ (e3 + 1074) * 2 ^ (ey + 1074) = 2 ^ (e3 - e') * 2 ^ c).
      { rewrite <- !Z.pow_add_r by lia. f_equal. unfold c. lia. }
      assert (E2 : 2 ^ (ex + 1074) * 2 ^ 1074 = 2 ^ (ex - ey - e') * 2 ^ c).
      { rewrite <- !Z.pow_add_r by lia. f_equal. unfold c. lia. }
      assert (HC : 0 < 2 ^ c) by pow2_pos.
      assert (HU : 0 < 2 ^ (e3 - e')) by pow2_pos.
      assert (HS : 0 < 2 ^ (ex - ey - e')) by pow2_pos.
      assert (HWy : 0 < 2 ^ (ey + 1074)) by pow2_pos.
      assert (Hsign : cond_Zopp (xorb sx sy) (m3 * 2 ^ (e3 + 1074)) *
                      cond_Zopp sy (Z.pos my * 2 ^ (ey + 1074)) -
                      cond_Zopp sx (Z.pos mx * 2 ^ (ex + 1074)) * 2 ^ 1074 =
                      cond_Zopp sx ((m3 * 2 ^ (e3 - e') * Z.pos my -
                                     Z.pos mx * 2 ^ (ex - ey - e')) * 2 ^ c)).
      { transitivity (cond_Zopp sx (m3 * Z.pos my * (2 ^ (e3 + 1074) * 2 ^ (ey + 1074)) -
                                    Z.pos mx * (2 ^ (ex + 1074) * 2 ^ 1074))).
        - destruct sx, sy; cbn [xorb cond_Zopp]; ring.
        - rewrite E1, E2. f_equal. ring. }
      rewrite Hsign, abs_cond_Zopp.
      replace (2 ^ (e3 + 1074) * Z.abs (Z.pos my * 2 ^ (ey + 1074)))
        with (2 ^ (e3 - e') * Z.pos my * 2 ^ c).
      2:{ rewrite Z.abs_eq by (apply Z.mul_nonneg_nonneg; lia).
          transitivity (Z.pos my * (2 ^ (e3 + 1074) * 2 ^ (ey + 1074))); [rewrite E1|]; ring. }
      rewrite Z.abs_mul, (Z.abs_eq (2 ^ c)) by lia.
      apply Z.mul_le_mono_nonneg_r; [lia|].
      clear -Hlo Hhi Hdiv HU HS Hm3.
      set (U := 2 ^ (e3 - e')) in *. set (S := Z.pos mx * 2 ^ (ex - ey - e')) in *.
      clearbody U S. nia.
Qed.

Lemma SFmul_value (X Y : spec_float) :
  valid_binary X = true -> valid_binary Y = true -> valid_binary (SF64mul X Y) = true ->
  SFfinite X = true -> SFfinite Y = true -> SFfinite (SF64mul X Y) = true ->
  exists u : Z,
    0 < u /\
    4503599627370496 * u <= Z.abs (scaled (SF64mul X Y)) + 4503599627370496 /\
    Z.abs (scaled (SF64mul X Y) * 2 ^ 1074 - scaled X * scaled Y) <= u * 2 ^ 1074.
Proof.
  intros HvX HvY HvR HX HY HR.
  assert (HK : 0 < 2 ^ 1074) by pow2_pos.
  destruct X as [sx|sx| |sx mx ex]; try discriminate HX;
  destruct Y as [sy|sy| |sy my ey]; try discriminate HY.
  - exists 1. cbn [SF64mul SFmul scaled]. lia.
  - exists 1. cbn [SF64mul SFmul scaled]. lia.
  - exists 1. cbn [SF64mul SFmul scaled]. lia.
  - cbn [SpecFloat.valid_binary] in HvX, HvY.
    apply bounded_range in HvX, HvY.
    unfold SF64mul, SFmul in *.
    destruct (binary_round_aux_value0 (xorb sx sy) (Z.pos (mx * my)) (ex + ey) loc_Exact
                ltac:(lia))
      as (m3 & e3 & Hres & Hm3 & Hee & He3 & Hlo & Hhi & Hzero).
    rewrite Hres in *.
    exists (2 ^ (e3 + 1074)).
    assert (Hz3 : m3 = 0 -> e3 = -1074).
    { intros Hm0. specialize (Hzero Hm0).
      destruct (Z_le_gt_dec (ex + ey) (-1074)) as [Hle|Hgt]; [lia|exfalso].
      replace (e3 - (ex + ey)) with 0 in Hhi by lia. rewrite Hm0 in Hhi.
      change (2 ^ 0) with 1 in Hhi. lia. }
    split; [pow2_pos|]. split.
    + rewrite round_result_scaled, abs_cond_Zopp by assumption.
      pose proof (round_result_ulp (xorb sx sy) m3 e3 Hm3 He3 Hz3 HR HvR) as Hu.
      assert (0 < 2 ^ (e3 + 1074)) by pow2_pos.
      set (U := 2 ^ (e3 + 1074)) in *. clearbody U. clear -Hu Hm3 H. nia.
    + rewrite round_result_scaled, !scaled_finite by assumption.
      set (c := ex + ey + 2148).
      assert (Hc0 : 0 <= c) by (unfold c; lia).
      assert (E1 : 2 ^ (e3 + 1074) * 2 ^ 1074 = 2 ^ (e3 - (ex + ey)) * 2 ^ c).
      { rewrite <- !Z.pow_add_r by lia. f_equal. unfold c. lia. }
      assert (E2 : 2 ^ (ex + 1074) * 2 ^ (ey + 1074) = 2 ^ c).
      { rewrite <- !Z.pow_add_r by lia. f_equal. unfold c. lia. }
      assert (HC : 0 < 2 ^ c) by pow2_pos.
      assert (HU : 0 < 2 ^ (e3 - (ex + ey))) by pow2_pos.
      assert (Hsign : cond_Zopp (xorb sx sy) (m3 * 2 ^ (e3 + 1074)) * 2 ^ 1074 -
                      cond_Zopp sx (Z.pos mx * 2 ^ (ex + 1074)) *
                      cond_Zopp sy (Z.pos my * 2 ^ (ey + 1074)) =
                      cond_Zopp (xorb sx sy)
                        ((m3 * 2 ^ (e3 - (ex + ey)) - Z.pos (mx * my)) * 2 ^ c)).
      { transitivity (cond_Zopp (xorb sx sy)
                        (m3 * (2 ^ (e3 + 1074) * 2 ^ 1074) -
                         Z.pos mx * Z.pos my * (2 ^ (ex + 1074) * 2 ^ (ey + 1074)))).
        - destruct sx, sy; cbn [xorb cond_Zopp]; ring.
        - rewrite E1, E2, Pos2Z.inj_mul. f_equal. ring. }
      rewrite Hsign, abs_cond_Zopp, E1.
      rewrite Z.abs_mul, (Z.abs_eq (2 ^ c)) by lia.
      apply Z.mul_le_mono_nonneg_r; [lia|].
      clear -Hlo Hhi HU Hm3.
      set (U := 2 ^ (e3 - (ex + ey))) in *. set (Q := Z.pos (mx * my)) in *.
      clearbody U Q. nia.
Qed.

Lemma SFmul_finite (X Y : spec_float) :
  SFfinite (SF64mul X Y) = true -> SFfinite X = true /\ SFfinite Y = true.
Proof.
  destruct X as [[]|[]| |sx mx ex], Y as [[]|[]| |sy my ey]; cbn; try discriminate; auto.
Qed.

(** A finite quotient by a finite number has a finite dividend. *)
Lemma SFdiv_finite (X Y : spec_float) :
  SFfinite (SF64div X Y) = true -> SFfinite Y = true -> SFfinite X = true.
Proof.
  destruct X as [[]|[]| |sx mx ex], Y as [[]|[]| |sy my ey]; cbn; try discriminate; auto.
Qed.

(** *** Comparisons, by exact values *)

(** Comparison of valid numbers is comparison of their exact values. *)
Lemma scaled_compare (m1 m2 : positive) (e1 e2 : Z) :
  bounded prec emax m1 e1 = true -> bounded prec emax m2 e2 = true ->
  (Z.pos m1 * 2 ^ (e1 + 1074) ?= Z.pos m2 * 2 ^ (e2 + 1074)) =
  match e1 ?= e2 with
  | Lt => Lt
  | Gt => Gt
  | Eq => Pos.compare_cont Eq m1 m2
  end.
Proof.
  intros H1 H2. apply bounded_range in H1, H2.
  destruct H1 as (He1 & Hu1 & Hn1), H2 as (He2 & Hu2 & Hn2).
  destruct (Z.compare_spec e1 e2) as [->|Hlt|Hgt].
  - assert (HW : 0 < 2 ^ (e2 + 1074)) by pow2_pos.
    change (Pos.compare_cont Eq m1 m2) with (m1 ?= m2)%positive.
    destruct (Pos.compare_spec m1 m2) as [->|Hm|Hm].
    + apply Z.compare_refl.
    + apply Z.compare_lt_iff. apply Z.mul_lt_mono_pos_r; lia.
    + apply Z.compare_gt_iff. apply Z.mul_lt_mono_pos_r; lia.
  - apply Z.compare_lt_iff.
    replace (e2 + 1074) with ((e2 - e1 - 1) + 1 + (e1 + 1074)) by lia.
    rewrite (Z.pow_add_r 2 (e2 - e1 - 1 + 1)), (Z.pow_add_r 2 (e2 - e1 - 1) 1) by lia.
    change (2 ^ 1) with 2.
    assert (HW : 0 < 2 ^ (e1 + 1074)) by pow2_pos.
    assert (HV : 0 < 2 ^ (e2 - e1 - 1)) by pow2_pos.
    specialize (Hn2 ltac:(lia)).
    set (W := 2 ^ (e1 + 1074)) in *. set (V := 2 ^ (e2 - e1 - 1)) in *.
    clearbody W V. clear -HW HV Hn2 Hu1.
    assert (Z.pos m1 * W < 9007199254740992 * W) by (apply Z.mul_lt_mono_pos_r; lia).
    assert (4503599627370496 * (2 * W) <= Z.pos m2 * (2 * W)) by (apply Z.mul_le_mono_nonneg_r; lia).
    assert (0 <= Z.pos m2 * (2 * W) * (V - 1)) by (apply Z.mul_nonneg_nonneg; lia).
    lia.
  - apply Z.compare_gt_iff.
    replace (e1 + 1074) with ((e1 - e2 - 1) + 1 + (e2 + 1074)) by lia.
    rewrite (Z.pow_add_r 2 (e1 - e2 - 1 + 1)), (Z.pow_add_r 2 (e1 - e2 - 1) 1) by lia.
    change (2 ^ 1) with 2.
    assert (HW : 0 < 2 ^ (e2 + 1074)) by pow2_pos.
    assert (HV : 0 < 2 ^ (e1 - e2 - 1)) by pow2_pos.
    specialize (Hn1 ltac:(lia)).
    set (W := 2 ^ (e2 + 1074)) in *. set (V := 2 ^ (e1 - e2 - 1)) in *.
    clearbody W V. clear -HW HV Hn1 Hu2.
    assert (Z.pos m2 * W < 9007199254740992 * W) by (apply Z.mul_lt_mono_pos_r; lia).
    assert (4503599627370496 * (2 * W) <= Z.pos m1 * (2 * W)) by (apply Z.mul_le_mono_nonneg_r; lia).
    assert (0 <= Z.pos m1 * (2 * W) * (V - 1)) by (apply Z.mul_nonneg_nonneg; lia).
    lia.
Qed.

Lemma SFcompare_scaled (X Y : spec_float) :
  valid_binary X = true -> valid_binary Y = true ->
  SFfinite X = true -> SFfinite Y = true ->
  SFcompare X Y = Some (scaled X ?= scaled Y).
Proof.
  intros HvX HvY HX HY.
  destruct X as [sx|sx| |sx mx ex]; try discriminate HX;
  destruct Y as [sy|sy| |sy my ey]; try discriminate HY.
  - reflexivity.
  - pose proof (valid_exponent _ _ _ HvY).
    assert (HP : 0 < Z.pos my * 2 ^ (ey + 1074)) by (apply Z.mul_pos_pos; [lia | pow2_pos]).
    unfold SFcompare, scaled. f_equal. symmetry.
    destruct sy; cbn [cond_Zopp]; [apply Z.compare_gt_iff | apply Z.compare_lt_iff]; lia.
  - pose proof (valid_exponent _ _ _ HvX).
    assert (HP : 0 < Z.pos mx * 2 ^ (ex + 1074)) by (apply Z.mul_pos_pos; [lia | pow2_pos]).
    unfold SFcompare, scaled. f_equal. symmetry.
    destruct sx; cbn [cond_Zopp]; [apply Z.compare_lt_iff | apply Z.compare_gt_iff]; lia.
  - pose proof (valid_exponent _ _ _ HvX). pose proof (valid_exponent _ _ _ HvY).
    cbn [SpecFloat.valid_binary] in HvX, HvY.
    assert (HPx : 0 < Z.pos mx * 2 ^ (ex + 1074)) by (apply Z.mul_pos_pos; [lia | pow2_pos]).
    assert (HPy : 0 < Z.pos my * 2 ^ (ey + 1074)) by (apply Z.mul_pos_pos; [lia | pow2_pos]).
    pose proof (scaled_compare mx my ex ey HvX HvY) as Hc.
    unfold SFcompare, scaled. f_equal.
    destruct sx, sy; cbn [cond_Zopp].
    + rewrite Z.compare_opp,
        (Z.compare_antisym (Z.pos mx * 2 ^ (ex + 1074)) (Z.pos my * 2 ^ (ey + 1074))), Hc.
      destruct (ex ?= ey); reflexivity.
    + symmetry. apply Z.compare_lt_iff. lia.
    + symmetry. apply Z.compare_gt_iff. lia.
    + rewrite Hc. reflexivity.
Qed.

(** *** Signs and overflow

    A rounded result with a non-negative mantissa is finite or the
    infinity of its sign. *)
Lemma round_result_shape (s : bool) (m3 e3 : Z) :
  0 <= m3 ->
  round_result s m3 e3 = S754_infinity s \/ SFfinite (round_result s m3 e3) = true.
Proof.
  intros Hm. unfold round_result. destruct m3 as [|p|p]; try lia; [right; reflexivity|].
  destruct (e3 <=? 971); [right | left]; reflexivity.
Qed.

Lemma SFsub_positive_shape (X Y : spec_float) :
  valid_binary X = true -> valid_binary Y = true ->
  SFfinite X = true -> SFfinite Y = true -> scaled Y < scaled X ->
  SF64sub X Y = S754_infinity false \/ SFfinite (SF64sub X Y) = true.
Proof.
  intros HvX HvY HX HY Hlt.
  destruct X as [sx|sx| |sx mx ex]; try discriminate HX;
  destruct Y as [sy|sy| |sy my ey]; try discriminate HY;
    try (right; destruct sx; try destruct sy; reflexivity).
  pose proof (valid_exponent _ _ _ HvX) as Hex. pose proof (valid_exponent _ _ _ HvY) as Hey.
  unfold SF64sub, SFsub.
  set (ez := Z.min ex ey).
  set (M := cond_Zopp sx (Z.pos (fst (shl_align mx ex ez))) -
            cond_Zopp sy (Z.pos (fst (shl_align my ey ez)))).
  assert (HM : M * 2 ^ (ez + 1074) = scaled (S754_finite sx mx ex) - scaled (S754_finite sy my ey)).
  { unfold M. rewrite Z.mul_sub_distr_r, !cond_Zopp_mul, !shl_align_scaled by (unfold ez; lia).
    reflexivity. }
  assert (HW : 0 < 2 ^ (ez + 1074)) by (apply Z.pow_pos_nonneg; unfold ez; lia).
  assert (HMpos : 0 < M).
  { destruct (Z_lt_le_dec 0 M) as [Hp|Hn]; [exact Hp | exfalso].
    assert (M * 2 ^ (ez + 1074) <= 0) by (apply Z.mul_nonpos_nonneg; lia).
    lia. }
  destruct M as [|p|p]; try lia. cbn [binary_normalize].
  destruct (binary_round_spec false p ez ltac:(unfold ez; lia)) as (m3 & e3 & Hm3 & _ & ->).
  apply round_result_shape. lia.
Qed.

Lemma scaled_positive_shape (X : spec_float) :
  0 < scaled X -> exists m e, X = S754_finite false m e.
Proof.
  destruct X as [sx|sx| |sx mx ex]; cbn [scaled]; try lia.
  destruct sx; cbn [cond_Zopp]; [lia | eauto].
Qed.

Lemma round_result_nonneg (m3 e3 : Z) :
  0 <= m3 ->
  round_result false m3 e3 = S754_infinity false \/
  (SFfinite (round_result false m3 e3) = true /\ 0 <= scaled (round_result false m3 e3)).
Proof.
  intros Hm. destruct (round_result_shape false m3 e3 Hm) as [E|E]; [left; exact E | right].
  split; [exact E|]. rewrite round_result_scaled by assumption. cbn [cond_Zopp].
  apply Z.mul_nonneg_nonneg; [lia | apply Z.pow_nonneg; lia].
Qed.

(** *** Quotients by [100.0] of numbers below it *)

(** A number below [100.0] divided by [100.0] is at most [1.0]. *)
Lemma SFdiv_100_le_1 (m : positive) (e : Z) :
  bounded prec emax m e = true ->
  e < -46 \/ (e = -46 /\ Z.pos m < Z.pos c100) ->
  exists m3 e3 : Z,
    0 <= m3 /\ (e3 <= -53 \/ (e3 = -52 /\ m3 = 4503599627370496)) /\
    SF64div (S754_finite false m e) SF100 = round_result false m3 e3.
Proof.
  intros Hb Hlt.
  destruct (SFdiv_100_bracket false m e Hb) as (m2 & n1 & n2 & Hn1 & Hn2 & Hm2 & Hq & He' & Hres).
  apply bounded_range in Hb. destruct Hb as (He & Hm & _).
  exists (m2 / 2 ^ n2), (e + 46 - Z.min 53 (e + 1120) + n1 + n2).
  assert (Hm2' : 0 <= m2).
  { assert (0 <= Z.pos m * 2 ^ Z.min 53 (e + 1120) / Z.pos c100 / 2 ^ n1); [|lia].
    apply Z.div_pos; [lia | pow2_pos]. }
  split; [apply Z.div_pos; [exact Hm2' | pow2_pos]|].
  split; [|exact Hres].
  assert (Hhalf : n2 = 1 -> m2 / 2 ^ n2 = 4503599627370496).
  { intros ->. destruct Hn2 as [[_ Hc]|[<- _]]; [discriminate Hc | reflexivity]. }
  clear Hres.
  destruct Hlt as [Hlt|[-> Hlt]].
  - clear Hm2 Hq Hm2'.
    destruct Hn1 as [[_ ->]|[_ ->]]; destruct Hn2 as [[H2 ->]|[H2 ->]];
      try (left; lia).
    assert (e = -47 \/ e < -47) as [->|] by lia; [right | left; lia].
    split; [reflexivity | apply Hhalf; reflexivity].
  - change (Z.min 53 (-46 + 1120)) with 53 in *.
    change (2 ^ 53) with 9007199254740992 in *. unfold c100 in *.
    pose proof (div_bounds (Z.pos m * 9007199254740992) 7036874417766400 ltac:(lia)) as Hdiv.
    set (q := Z.pos m * 9007199254740992 / 7036874417766400) in *. clearbody q.
    destruct Hn1 as [[_ ->]|[H1 _]]; [|lia].
    destruct Hn2 as [[H2 ->]|[H2 ->]]; [left; lia | right].
    split; [reflexivity | apply Hhalf; reflexivity].
Qed.

Lemma SFltb_100_cases (m : positive) (e : Z) :
  SFltb (S754_finite false m e) SF100 = true ->
  e < -46 \/ (e = -46 /\ Z.pos m < Z.pos c100).
Proof.
  unfold SFltb, SF100, SFcompare. destruct (Z.compare_spec e (-46)); try lia; try discriminate.
  destruct (Pos.compare_cont Eq m c100) eqn:Ec; try discriminate.
  intros _. right. split; [assumption | exact Ec].
Qed.

Lemma SFdiv_100_scaled_le_1 (X : spec_float) :
  valid_binary X = true -> valid_binary (SF64div X SF100) = true ->
  SFfinite (SF64div X SF100) = true ->
  SFleb (S754_zero false) X = true -> SFltb X SF100 = true ->
  scaled (SF64div X SF100) <= 2 ^ 1074.
Proof.
  intros Hv Hvz Hz H0 H100.
  assert (HK : 0 < 2 ^ 1074) by pow2_pos.
  destruct (SFleb_0_cases _ H0) as [[b E]|[E|(m & e & E)]]; rewrite E in *.
  - unfold SF64div, SFdiv, SF100. cbn [scaled]. lia.
  - discriminate H100.
  - cbn [SpecFloat.valid_binary] in Hv.
    destruct (SFdiv_100_le_1 m e Hv (SFltb_100_cases m e H100)) as (m3 & e3 & Hm3 & Hc & Hres).
    rewrite Hres in *. rewrite round_result_scaled by assumption. cbn [cond_Zopp].
    destruct Hc as [He3|[-> ->]].
    + unfold round_result in Hvz, Hz. destruct m3 as [|p|p]; try lia.
      destruct (e3 <=? 971); [|discriminate Hz].
      cbn [SpecFloat.valid_binary] in Hvz. apply bounded_range in Hvz.
      destruct Hvz as (He & Hp & _).
      assert (HU : 0 < 2 ^ (e3 + 1074)) by pow2_pos.
      assert (HV : 2 ^ (e3 + 1074) <= 2 ^ 1021) by (apply Z.pow_le_mono_r; lia).
      replace (2 ^ 1074) with (9007199254740992 * 2 ^ 1021)
        by (change 9007199254740992 with (2 ^ 53); rewrite <- Z.pow_add_r by lia; reflexivity).
      clear HK.
      set (U := 2 ^ (e3 + 1074)) in *. set (V := 2 ^ 1021) in *. clearbody U V.
      clear -Hp HU HV. nia.
    + change 4503599627370496 with (2 ^ 52). rewrite <- Z.pow_add_r by lia.
      change (52 + (-52 + 1074)) with 1074. lia.
Qed.

(** *** The operations of [PrimFloat], by exact values *)
Lemma ltb_scaled (a b : float) :
  float_finite a = true -> float_finite b = true ->
  (a <? b)%float = (float_scaled a <? float_scaled b).
Proof.
  intros Ha Hb. rewrite FloatAxioms.ltb_spec. unfold SFltb.
  rewrite SFcompare_scaled by (apply Prim2SF_valid || assumption).
  unfold Z.ltb, float_scaled. destruct (_ ?= _); reflexivity.
Qed.

Lemma leb_scaled (a b : float) :
  float_finite a = true -> float_finite b = true ->
  (a <=? b)%float = (float_scaled a <=? float_scaled b).
Proof.
  intros Ha Hb. rewrite FloatAxioms.leb_spec. unfold SFleb.
  rewrite SFcompare_scaled by (apply Prim2SF_valid || assumption).
  unfold Z.leb, float_scaled. destruct (_ ?= _); reflexivity.
Qed.

Lemma eqb_scaled (a b : float) :
  float_finite a = true -> float_finite b = true ->
  (a =? b)%float = (float_scaled a =? float_scaled b).
Proof.
  intros Ha Hb. rewrite FloatAxioms.eqb_spec. unfold SFeqb.
  rewrite SFcompare_scaled by (apply Prim2SF_valid || assumption).
  unfold Z.eqb, float_scaled.
  destruct (Z.compare_spec (scaled (Prim2SF a)) (scaled (Prim2SF b))) as [->|H|H].
  - destruct (scaled (Prim2SF b)) as [|p|p]; try reflexivity;
      cbn; rewrite Pos.eqb_refl; reflexivity.
  - destruct (scaled (Prim2SF a)) as [|p|p], (scaled (Prim2SF b)) as [|q|q];
      try reflexivity; try lia; cbn; symmetry; apply Pos.eqb_neq; lia.
  - destruct (scaled (Prim2SF a)) as [|p|p], (scaled (Prim2SF b)) as [|q|q];
      try reflexivity; try lia; cbn; symmetry; apply Pos.eqb_neq; lia.
Qed.

Lemma ltb_of_scaled (a b : float) :
  float_finite a = true -> float_finite b = true ->
  float_scaled a < float_scaled b -> (a <? b)%float = true.
Proof.
  intros Ha Hb Hlt. rewrite ltb_scaled by assumption. apply Z.ltb_lt. exact Hlt.
Qed.

Lemma float_scaled_1 : float_scaled 1 = 2 ^ 1074.
Proof. unfold float_scaled. rewrite Prim2SF_1. vm_compute. reflexivity. Qed.

Lemma float_scaled_100 : float_scaled 100 = 100 * 2 ^ 1074.
Proof. unfold float_scaled. rewrite Prim2SF_100. vm_compute. reflexivity. Qed.

Lemma float_scaled_0 : float_scaled 0 = 0.
Proof. reflexivity. Qed.

Lemma pow2_1074_large : 2 ^ 100 <= 2 ^ 1074.
Proof. apply Z.pow_le_mono_r; lia. Qed.

(** The four operations on floats, by exact values. *)
Lemma sub_value (a b : float) :
  float_finite (a - b)%float = true ->
  float_finite a = true /\ float_finite b = true /\
  4503599627370496 * Z.abs (float_scaled (a - b)%float - (float_scaled a - float_scaled b))
  <= Z.abs (float_scaled (a - b)%float).
Proof.
  unfold float_finite, float_scaled. intros HR.
  pose proof (Prim2SF_valid a) as Hva. pose proof (Prim2SF_valid b) as Hvb.
  rewrite sub_spec in HR |- *.
  destruct (SFsub_finite _ _ HR) as [Ha Hb].
  split; [exact Ha|]. split; [exact Hb|].
  apply SFsub_value; assumption.
Qed.

Lemma mul_value (a b : float) :
  float_finite (a * b)%float = true ->
  float_finite a = true /\ float_finite b = true /\
  exists u : Z,
    0 < u /\
    4503599627370496 * u <= Z.abs (float_scaled (a * b)%float) + 4503599627370496 /\
    Z.abs (float_scaled (a * b)%float * 2 ^ 1074 - float_scaled a * float_scaled b)
    <= u * 2 ^ 1074.
Proof.
  unfold float_finite, float_scaled. intros HR.
  pose proof (Prim2SF_valid a) as Hva. pose proof (Prim2SF_valid b) as Hvb.
  pose proof (Prim2SF_valid (a * b)%float) as Hvr.
  rewrite mul_spec in HR, Hvr |- *.
  destruct (SFmul_finite _ _ HR) as [Ha Hb].
  split; [exact Ha|]. split; [exact Hb|].
  apply SFmul_value; assumption.
Qed.

Lemma div_value (a b : float) :
  float_finite (a / b)%float = true -> float_finite b = true ->
  float_finite a = true /\
  exists u : Z,
    0 < u /\
    4503599627370496 * u <= Z.abs (float_scaled (a / b)%float) + 4503599627370496 /\
    Z.abs (float_scaled (a / b)%float * float_scaled b - float_scaled a * 2 ^ 1074)
    <= u * Z.abs (float_scaled b).
Proof.
  unfold float_finite, float_scaled. intros HR Hb.
  pose proof (Prim2SF_valid a) as Hva. pose proof (Prim2SF_valid b) as Hvb.
  pose proof (Prim2SF_valid (a / b)%float) as Hvr.
  rewrite div_spec in HR, Hvr |- *.
  pose proof (SFdiv_finite _ _ HR Hb) as Ha.
  split; [exact Ha|].
  apply SFdiv_value; assumption.
Qed.



(** *** The water fractions *)
Lemma nonneg_below_100_finite (x : float) :
  (0 <=? x)%float = true -> (x <? 100)%float = true -> float_finite x = true.
Proof.
  rewrite FloatAxioms.leb_spec, FloatAxioms.ltb_spec, Prim2SF_100. unfold float_finite.
  change (Prim2SF 0%float) with (S754_zero false).
  intros H0 H100.
  destruct (SFleb_0_cases _ H0) as [[b E]|[E|(m & e & E)]]; rewrite E in *;
    [reflexivity | discriminate H100 | reflexivity].
Qed.

(** For a concentration in [[0,100)] the computed water fraction [y]
    satisfies [100 y = 100 - x] up to [2^-42]. *)
Lemma water_fraction_value (x : float) :
  (0 <=? x)%float = true -> (x <? 100)%float = true ->
  float_finite (1 - x / 100)%float = true /\
  0 <= float_scaled x < 100 * 2 ^ 1074 /\
  4398046511104 *
    Z.abs (100 * float_scaled (1 - x / 100)%float - (100 * 2 ^ 1074 - float_scaled x))
  <= 2 ^ 1074.
Proof.
  intros H0 H100.
  pose proof (water_fraction_finite x H0 H100) as Hy.
  pose proof (nonneg_below_100_finite x H0 H100) as Hx.
  assert (H1 : float_finite 1 = true) by reflexivity.
  assert (Hc : float_finite 100 = true) by reflexivity.
  assert (Hz0 : float_finite 0 = true) by reflexivity.
  rewrite leb_scaled in H0 by assumption. rewrite ltb_scaled in H100 by assumption.
  rewrite float_scaled_0 in H0. rewrite float_scaled_100 in H100.
  apply Z.leb_le in H0. apply Z.ltb_lt in H100.
  split; [exact Hy|]. split; [lia|].
  unfold float_finite, float_scaled in *.
  pose proof (Prim2SF_valid x) as Hvx.
  pose proof (Prim2SF_valid 1) as Hv1.
  pose proof (Prim2SF_valid 100) as Hv100.
  pose proof (Prim2SF_valid (x / 100)%float) as Hvz.
  rewrite sub_spec in Hy |- *.
  destruct (SFsub_finite _ _ Hy) as [_ Hz].
  pose proof (SFsub_value _ _ Hv1 Hvz H1 Hz Hy) as HS.
  rewrite div_spec in Hz, Hvz, HS |- *.
  destruct (SFdiv_value _ _ Hvx Hv100 Hvz Hx Hc Hz) as (u & Hu & Hu2 & HD).
  fold (float_scaled 1) in HS. fold (float_scaled 100) in HD.
  rewrite float_scaled_1 in HS. rewrite float_scaled_100 in HD.
  pose proof pow2_1074_large as HK.
  change (2 ^ 100) with 1267650600228229401496703205376 in HK.
  set (K := 2 ^ 1074) in *.
  set (Y := scaled (SF64sub (Prim2SF 1) (SF64div (Prim2SF x) (Prim2SF 100)))) in *.
  set (Z := scaled (SF64div (Prim2SF x) (Prim2SF 100))) in *.
  set (X := scaled (Prim2SF x)) in *.
  clearbody K Y Z X.
  clear -H0 H100 HS Hu Hu2 HD HK.
  assert (HD' : Z.abs (100 * Z - X) <= 100 * u).
  { apply (Z.mul_le_mono_pos_r _ _ K); [lia|].
    rewrite <- (Z.abs_eq K) at 1 by lia. rewrite <- Z.abs_mul.
    replace ((100 * Z - X) * K) with (Z * (100 * K) - X * K) by ring.
    rewrite (Z.abs_eq (100 * K)) in HD by lia. lia. }
  clear HD. lia.
Qed.

(** For a concentration in [[0,100)] the computed water fraction is
    positive. *)
Lemma water_fraction_positive (x : float) :
  (0 <=? x)%float = true -> (x <? 100)%float = true ->
  0 < float_scaled (1 - x / 100)%float.
Proof.
  intros H0 H100.
  pose proof (water_fraction_finite x H0 H100) as Hy.
  pose proof (ltb_100_not_eqb x H100) as Hne.
  rewrite <- guard_iff in Hne.
  rewrite eqb_scaled in Hne by (exact Hy || reflexivity).
  rewrite float_scaled_0 in Hne. apply Z.eqb_neq in Hne.
  destruct (sub_value _ _ Hy) as (_ & Hz & HS).
  rewrite float_scaled_1 in HS.
  assert (HZ : float_scaled (x / 100)%float <= 2 ^ 1074).
  { unfold float_scaled, float_finite in *. rewrite div_spec, Prim2SF_100 in *.
    apply SFdiv_100_scaled_le_1.
    - apply Prim2SF_valid.
    - rewrite <- Prim2SF_100, <- div_spec. apply Prim2SF_valid.
    - exact Hz.
    - rewrite FloatAxioms.leb_spec in H0. exact H0.
    - rewrite FloatAxioms.ltb_spec, Prim2SF_100 in H100. exact H100. }
  revert Hne HS HZ.
  generalize (float_scaled (1 - x / 100)%float) (float_scaled (x / 100)%float).
  generalize (2 ^ 1074). clear. intros K Y Z Hne HS HZ. lia.
Qed.

(** When the final water fraction is positive and below the initial one by
    more than [2^-49], and the mass is a normal number, the final mass
    exceeds the initial one. *)
Lemma final_mass_exceeds (m1 y1 y3 : float) :
  float_finite (m1 * y1 / y3)%float = true -> float_finite y3 = true ->
  4503599627370496 <= float_scaled m1 ->
  0 < float_scaled y3 -> float_scaled y1 <= 2 * 2 ^ 1074 ->
  2 ^ 1074 < 562949953421312 * (float_scaled y1 - float_scaled y3) ->
  float_scaled m1 < float_scaled (m1 * y1 / y3)%float.
Proof.
  intros HD Hy3 HM HY3 HY1 Hgap.
  destruct (div_value _ _ HD Hy3) as (Hp & uD & HuD & HuD2 & HDv).
  destruct (mul_value _ _ Hp) as (Hm1 & Hy1 & uP & HuP & HuP2 & HPv).
  assert (HK : 0 < 2 ^ 1074) by pow2_pos.
  set (K := 2 ^ 1074) in *.
  set (D := float_scaled (m1 * y1 / y3)%float) in *.
  set (P := float_scaled (m1 * y1)%float) in *.
  set (M := float_scaled m1) in *.
  set (Y1 := float_scaled y1) in *. set (Y3 := float_scaled y3) in *.
  clearbody K D P M Y1 Y3.
  clear -HM HY3 HY1 Hgap HuD HuD2 HDv HuP HuP2 HPv HK.
  rewrite (Z.abs_eq Y3) in HDv by lia.
  destruct (Z_lt_le_dec M D) as [Hlt|Hle]; [exact Hlt | exfalso].
  (* the rounding error of the product *)
  assert (E1 : Z.abs P * K = Z.abs (P * K)).
  { rewrite Z.abs_mul, (Z.abs_eq K) by lia. reflexivity. }
  assert (H1 : 4503599627370496 * (uP * K) <= Z.abs (P * K) + 4503599627370496 * K).
  { rewrite <- E1.
    replace (4503599627370496 * (uP * K)) with (4503599627370496 * uP * K) by ring.
    replace (Z.abs P * K + 4503599627370496 * K)
      with ((Z.abs P + 4503599627370496) * K) by ring.
    apply Z.mul_le_mono_nonneg_r; lia. }
  assert (H2 : M * Y1 <= 2 * (M * K)).
  { replace (2 * (M * K)) with (M * (2 * K)) by ring.
    apply Z.mul_le_mono_nonneg_l; lia. }
  assert (H3 : 4503599627370496 * K <= M * K) by (apply Z.mul_le_mono_nonneg_r; lia).
  assert (H4 : 0 <= M * Y1) by (apply Z.mul_nonneg_nonneg; lia).
  (* the quotient plus its rounding error *)
  assert (H5 : 2251799813685248 * (D + uD) <= 2251799813685249 * M) by lia.
  assert (H6 : 2251799813685248 * ((D + uD) * Y3) <= 2251799813685249 * (M * Y3)).
  { replace (2251799813685248 * ((D + uD) * Y3)) with (2251799813685248 * (D + uD) * Y3) by ring.
    replace (2251799813685249 * (M * Y3)) with (2251799813685249 * M * Y3) by ring.
    apply Z.mul_le_mono_nonneg_r; lia. }
  assert (H7 : M * (2251799813685248 * (Y1 - Y3) - Y3 - 2 * K) <= 0).
  { replace (M * (2251799813685248 * (Y1 - Y3) - Y3 - 2 * K))
      with (2251799813685248 * (M * Y1) - 2251799813685249 * (M * Y3) - 2 * (M * K)) by ring.
    replace ((D + uD) * Y3) with (D * Y3 + uD * Y3) in H6 by ring.
    set (T1 := M * Y1) in *. set (T2 := P * K) in *. set (T3 := D * Y3) in *.
    set (MK := M * K) in *. set (MY3 := M * Y3) in *.
    set (uPK := uP * K) in *. set (uDY := uD * Y3) in *.
    clearbody T1 T2 T3 MK MY3 uPK uDY. lia. }
  assert (H8 : 2251799813685248 * (Y1 - Y3) - Y3 - 2 * K <= 0).
  { destruct (Z_le_gt_dec (2251799813685248 * (Y1 - Y3) - Y3 - 2 * K) 0) as [Hok|Hbad];
      [exact Hok | exfalso].
    assert (0 < M * (2251799813685248 * (Y1 - Y3) - Y3 - 2 * K))
      by (apply Z.mul_pos_pos; lia).
    lia. }
  lia.
Qed.

(** Products, quotients and differences of positive numbers are not NaN
    and not negative: they are finite or [+infinity]. *)
Lemma mul_positive_shape (a b : float) :
  0 < float_scaled a -> 0 < float_scaled b ->
  Prim2SF (a * b)%float = S754_infinity false \/
  (float_finite (a * b)%float = true /\ 0 <= float_scaled (a * b)%float).
Proof.
  unfold float_scaled, float_finite. rewrite mul_spec. intros Ha Hb.
  destruct (scaled_positive_shape _ Ha) as (ma & ea & ->).
  destruct (scaled_positive_shape _ Hb) as (mb & eb & ->).
  unfold SF64mul, SFmul. cbn [xorb].
  destruct (binary_round_aux_value false (Z.pos (ma * mb)) (ea + eb) loc_Exact ltac:(lia))
    as (m3 & e3 & -> & Hm3 & _).
  apply round_result_nonneg. exact Hm3.
Qed.

Lemma div_positive_shape (p y : float) :
  float_finite p = true -> 0 <= float_scaled p -> 0 < float_scaled y ->
  Prim2SF (p / y)%float = S754_infinity false \/
  (float_finite (p / y)%float = true /\ 0 <= float_scaled (p / y)%float).
Proof.
  unfold float_scaled, float_finite. rewrite div_spec. intros Hp Hp0 Hy.
  pose proof (Prim2SF_valid p) as Hvp. pose proof (Prim2SF_valid y) as Hvy.
  destruct (scaled_positive_shape _ Hy) as (my & ey & Ey). rewrite Ey in *.
  destruct (Prim2SF p) as [sp|sp| |sp mp ep]; try discriminate Hp.
  - right. unfold SF64div, SFdiv. cbn [SFfinite scaled]. split; [reflexivity | lia].
  - assert (sp = false) as ->.
    { destruct sp; [|reflexivity]. exfalso.
      pose proof (valid_exponent _ _ _ Hvp).
      assert (0 < Z.pos mp * 2 ^ (ep + 1074)) by (apply Z.mul_pos_pos; [lia | pow2_pos]).
      cbn [scaled cond_Zopp] in Hp0. lia. }
    cbn [SpecFloat.valid_binary] in Hvp, Hvy.
    unfold SF64div, SFdiv. cbn [xorb].
    destruct (SFdiv_core_value mp my ep ey Hvp Hvy) as (q & e' & l & -> & Hq & _).
    destruct (binary_round_aux_value false q e' l Hq) as (m3 & e3 & -> & Hm3 & _).
    apply round_result_nonneg. exact Hm3.
Qed.

Lemma sub_positive_shape (a b : float) :
  float_finite a = true -> float_finite b = true -> float_scaled b < float_scaled a ->
  Prim2SF (a - b)%float = S754_infinity false \/
  (float_finite (a - b)%float = true /\ 0 < float_scaled (a - b)%float).
Proof.
  intros Ha Hb Hlt.
  assert (Hs : Prim2SF (a - b)%float = S754_infinity false \/ float_finite (a - b)%float = true).
  { unfold float_finite, float_scaled in *. rewrite sub_spec.
    apply SFsub_positive_shape; try assumption; apply Prim2SF_valid. }
  destruct Hs as [E|E]; [left; exact E | right].
  split; [exact E|].
  destruct (sub_value _ _ E) as (_ & _ & HS).
  revert HS Hlt.
  generalize (float_scaled (a - b)%float) (float_scaled a) (float_scaled b).
  clear. intros S A B HS Hlt. lia.
Qed.

Lemma div_infinity (p y : float) :
  Prim2SF p = S754_infinity false -> 0 < float_scaled y ->
  Prim2SF (p / y)%float = S754_infinity false.
Proof.
  unfold float_scaled. rewrite div_spec. intros -> Hy.
  destruct (scaled_positive_shape _ Hy) as (my & ey & ->). reflexivity.
Qed.

Lemma sub_infinity (d m : float) :
  Prim2SF d = S754_infinity false -> float_finite m = true ->
  Prim2SF (d - m)%float = S754_infinity false.
Proof.
  unfold float_finite. rewrite sub_spec. intros -> Hm.
  destruct (Prim2SF m) as [s|s| |s mm em]; try discriminate Hm; reflexivity.
Qed.

Lemma ltb_infinity (a b : float) :
  float_finite a = true -> Prim2SF b = S754_infinity false -> (a <? b)%float = true.
Proof.
  unfold float_finite. rewrite FloatAxioms.ltb_spec. intros Ha ->.
  destruct (Prim2SF a) as [s|s| |s mm em]; try discriminate Ha; reflexivity.
Qed.

(** *** Valid inputs *)

(** A mass at least the smallest normal number and below infinity. *)
Lemma normal_mass (m : float) :
  (0x1p-1022 <=? m)%float = true -> (m <? infinity)%float = true ->
  float_finite m = true /\ 4503599627370496 <= float_scaled m.
Proof.
  intros Hlo Hhi.
  assert (Hfin : float_finite m = true).
  { unfold float_finite. rewrite FloatAxioms.ltb_spec in Hhi.
    rewrite FloatAxioms.leb_spec in Hlo.
    change (Prim2SF infinity) with (S754_infinity false) in Hhi.
    change (Prim2SF 0x1p-1022%float) with (S754_finite false 4503599627370496 (-1074)) in Hlo.
    destruct (Prim2SF m) as [s|[]| |s mm em]; try discriminate Hhi; try discriminate Hlo;
      reflexivity. }
  split; [exact Hfin|].
  rewrite leb_scaled in Hlo by (reflexivity || exact Hfin).
  apply Z.leb_le in Hlo.
  change (float_scaled 0x1p-1022%float) with 4503599627370496 in Hlo. exact Hlo.
Qed.

(** Concentrations with [0 <= x1 < x3 < 100] are finite numbers. *)
Lemma concentrations_finite (x1 x3 : float) :
  (0 <=? x1)%float = true -> (x1 <? x3)%float = true -> (x3 <? 100)%float = true ->
  float_finite x1 = true /\ float_finite x3 = true.
Proof.
  unfold float_finite.
  rewrite FloatAxioms.leb_spec, !FloatAxioms.ltb_spec, Prim2SF_100.
  change (Prim2SF 0%float) with (S754_zero false).
  intros H0 Hlt H100.
  destruct (SFleb_0_cases _ H0) as [[b E]|[E|(m & e & E)]]; rewrite E in *;
    destruct (Prim2SF x3) as [s3|[]| |s3 m3 e3];
    try discriminate Hlt; try discriminate H100; split; reflexivity.
Qed.

Lemma valid_concentrations (x1 x3 : float) :
  (0 <=? x1)%float = true -> (x1 <? x3)%float = true -> (x3 <? 100)%float = true ->
  (x1 <? 100)%float = true /\ (0 <=? x3)%float = true /\
  float_scaled x1 < float_scaled x3.
Proof.
  intros H0 Hlt H100.
  destruct (concentrations_finite x1 x3 H0 Hlt H100) as [Hf1 Hf3].
  assert (Hfc : float_finite 100 = true) by reflexivity.
  assert (Hfz : float_finite 0 = true) by reflexivity.
  pose proof H0 as H0'. pose proof Hlt as Hlt'. pose proof H100 as H100'.
  rewrite leb_scaled in H0' by assumption.
  rewrite ltb_scaled in Hlt', H100' by assumption.
  rewrite (ltb_scaled x1 100), (leb_scaled 0 x3) by assumption.
  apply Z.leb_le in H0'. apply Z.ltb_lt in Hlt', H100'.
  rewrite float_scaled_0 in *.
  split; [apply Z.ltb_lt; lia|]. split; [apply Z.leb_le; lia | exact Hlt'].
Qed.

End Rounding.

Import Rounding.

Close Scope Z_scope.


(** ** The claims *)

(** C1. For every input with [final_concentration != 100] the function
    returns [final_mass = initial_mass * (1 - initial_concentration/100) /
    (1 - final_concentration/100)] and [sugar_mass = final_mass -
    initial_mass], each operation being the binary64 one, and makes no
    Streamlit call. *)
Theorem compute_returns_formula
    (initial_mass initial_concentration final_concentration : float)
    (log : list (st_call float)) :
  (final_concentration =? 100)%float = false ->
  let final_mass :=
    (initial_mass * (1 - initial_concentration / 100)
       / (1 - final_concentration / 100))%float in
  calculate_mass_balance initial_mass initial_concentration final_concentration log =
  (Returned (Some final_mass, Some (final_mass - initial_mass)%float), log).
Proof.
  intros Hne final_mass. rewrite calculate_mass_balance_binary64, Hne. reflexivity.
Qed.

Lemma compute_returns_formula_witness :
  (10 =? 100)%float = false /\
  calculate_mass_balance 50%float 7%float 10%float [] =
  (Returned (Some (50 * (1 - 7 / 100) / (1 - 10 / 100))%float,
             Some (50 * (1 - 7 / 100) / (1 - 10 / 100) - 50)%float), []).
Proof.
  split; [reflexivity|].
  apply (compute_returns_formula 50%float 7%float 10%float []). reflexivity.
Defined.

(** C2. [final_concentration == 100] and [final_water_fraction == 0] are the
    same condition; under it the function makes the [st.error] call and
    returns [(None, None)]: no number is produced. *)
Theorem compute_fails_at_100
    (initial_mass initial_concentration final_concentration : float)
    (log : list (st_call float)) :
  (final_concentration =? 100)%float = true \/
  eqb (water_fraction final_concentration) lit_0 = true ->
  (final_concentration =? 100)%float = true /\
  eqb (water_fraction final_concentration) lit_0 = true /\
  calculate_mass_balance initial_mass initial_concentration final_concentration log =
  (Returned (None, None), log ++ [Call error [Text error_message]]).
Proof.
  intros Hcond.
  assert (Hw : eqb (water_fraction final_concentration) lit_0 =
               (final_concentration =? 100)%float)
    by (unfold water_fraction; cbn; apply guard_iff).
  assert (Heq : (final_concentration =? 100)%float = true)
    by (destruct Hcond as [Hc|Hc]; [exact Hc | rewrite <- Hw; exact Hc]).
  split; [exact Heq|]. split; [rewrite Hw; exact Heq|].
  rewrite calculate_mass_balance_binary64, Heq. reflexivity.
Qed.

Lemma compute_fails_at_100_witness :
  ((100 =? 100)%float = true \/ eqb (water_fraction 100%float) lit_0 = true) /\
  (100 =? 100)%float = true /\
  eqb (water_fraction 100%float) lit_0 = true /\
  calculate_mass_balance 50%float 7%float 100%float [] =
  (Returned (None, None), [] ++ [Call error [Text error_message]]).
Proof.
  split; [left; reflexivity|].
  apply (compute_fails_at_100 50%float 7%float 100%float []). left. reflexivity.
Defined.





(** Outside the domain of the final concentration the quotient can fall
    among the subnormal numbers, and the two water masses then differ by
    more than [1e-9] of their size. *)
Example water_mass_invalid_concentration :
  exists final_mass sugar_mass,
    calculate_mass_balance 1e-20%float 0%float (-1e298)%float [] =
    (Returned (Some final_mass, Some sugar_mass), []) /\
    (abs (1e-20 * (1 - 0 / 100) - final_mass * (1 - (-1e298) / 100))
     <=? 1e-9 * abs (final_mass * (1 - (-1e298) / 100)))%float = false.
Proof. eexists _, _. split; reflexivity. Qed.



(** C5, as stated, fails.  With [initial_mass = 0], a valid input, the
    result is [(0, 0)]; with the smallest positive mass, 5e-324, the
    quotient rounds back to the mass and the difference is 0; and with two
    adjacent concentrations, 26 and the next float, the water fractions
    coincide and the rounded quotient falls below the mass. *)
Lemma strict_increase_counterexample :
  (in_range m1_number_input 0%float = true /\
   (7 <? 10)%float = true /\ (10 <? 100)%float = true /\
   calculate_mass_balance 0%float 7%float 10%float [] =
   (Returned (Some 0%float, Some 0%float), []) /\
   (0 <? 0)%float = false) /\
  (in_range m1_number_input 5e-324%float = true /\ (0 <? 5e-324)%float = true /\
   calculate_mass_balance 5e-324%float 7%float 10%float [] =
   (Returned (Some 5e-324%float, Some 0%float), []) /\
   (5e-324 <? 5e-324)%float = false /\ (0 <? 0)%float = false) /\
  (in_range m1_number_input 0.1%float = true /\ (0 <? 0.1)%float = true /\
   in_range x1_number_input 26%float = true /\
   in_range x3_number_input (next_up 26) = true /\
   (26 <? next_up 26)%float = true /\ (next_up 26 <? 100)%float = true /\
   exists final_mass sugar_mass,
     calculate_mass_balance 0.1%float 26%float (next_up 26) [] =
     (Returned (Some final_mass, Some sugar_mass), []) /\
     (0.1 <? final_mass)%float = false /\ (0 <? sugar_mass)%float = false).
Proof.
  split; [repeat split; reflexivity|]. split; [repeat split; reflexivity|].
  repeat split. eexists _, _. repeat split.
Qed.

(** C5, amended. On binary64, for a mass that is a normal number
    ([2.2250738585072014e-308 <= initial_mass < infinity]) and
    concentrations [0 <= initial_concentration < final_concentration < 100]
    at least [1e-12] apart, the call succeeds with [final_mass >
    initial_mass] and [sugar_mass > 0]; either result is [+infinity] when
    it overflows.  The distance of the two concentrations is taken between
    their exact values, in units of [2^-1074]. *)
Theorem strict_increase_binary64
    (initial_mass initial_concentration final_concentration : float)
    (log : list (st_call float)) :
  (0x1p-1022 <=? initial_mass)%float = true ->
  (initial_mass <? infinity)%float = true ->
  (0 <=? initial_concentration)%float = true ->
  (initial_concentration <? final_concentration)%float = true ->
  (final_concentration <? 100)%float = true ->
  (float_scaled 1 <=
   1000000000000 * (float_scaled final_concentration - float_scaled initial_concentration))%Z ->
  exists final_mass sugar_mass,
    calculate_mass_balance initial_mass initial_concentration final_concentration log =
    (Returned (Some final_mass, Some sugar_mass), log) /\
    (initial_mass <? final_mass)%float = true /\ (0 <? sugar_mass)%float = true.
Proof.
  intros Hlo Hhi H0 Hlt H100 Hgap.
  eexists _, _. split.
  { rewrite calculate_mass_balance_binary64, (ltb_100_not_eqb _ H100). reflexivity. }
  destruct (normal_mass _ Hlo Hhi) as [Hfm HM].
  destruct (valid_concentrations _ _ H0 Hlt H100) as (H100' & H0' & _).
  destruct (water_fraction_value _ H0 H100') as (Hfy1 & HX1 & HY1).
  destruct (water_fraction_value _ H0' H100) as (Hfy3 & HX3 & HY3).
  pose proof (water_fraction_positive _ H0' H100) as Hpos3.
  rewrite float_scaled_1 in Hgap.
  set (y1 := (1 - initial_concentration / 100)%float) in *.
  set (y3 := (1 - final_concentration / 100)%float) in *.
  assert (HK : (1267650600228229401496703205376 <= 2 ^ 1074)%Z) by exact pow2_1074_large.
  assert (Hy : (float_scaled y1 <= 2 * 2 ^ 1074 /\
                2 ^ 1074 < 562949953421312 * (float_scaled y1 - float_scaled y3))%Z).
  { revert HK Hgap HX1 HY1 HX3 HY3 Hpos3.
    generalize (float_scaled y1) (float_scaled y3)
      (float_scaled initial_concentration) (float_scaled final_concentration).
    generalize (2 ^ 1074)%Z. clear. intros K Y1 Y3 X1 X3. lia. }
  destruct Hy as [HY1le Hygap].
  assert (Hpos1 : (0 < float_scaled y1)%Z) by lia.
  assert (HposM : (0 < float_scaled initial_mass)%Z) by lia.
  assert (Hfz : float_finite 0 = true) by reflexivity.
  (* the product, the quotient and the difference may each overflow *)
  destruct (mul_positive_shape initial_mass y1 HposM Hpos1) as [Ep|[Hfp Hp0]].
  { pose proof (div_infinity _ y3 Ep Hpos3) as Ed.
    pose proof (sub_infinity _ initial_mass Ed Hfm) as Es.
    split; apply ltb_infinity; assumption. }
  destruct (div_positive_shape _ y3 Hfp Hp0 Hpos3) as [Ed|[Hfd _]].
  { pose proof (sub_infinity _ initial_mass Ed Hfm) as Es.
    split; apply ltb_infinity; assumption. }
  pose proof (final_mass_exceeds initial_mass y1 y3 Hfd Hfy3 HM Hpos3 HY1le Hygap) as Hexc.
  split; [apply ltb_of_scaled; assumption|].
  destruct (sub_positive_shape _ _ Hfd Hfm Hexc) as [Es|[Hfs Hs]].
  - apply ltb_infinity; assumption.
  - apply ltb_of_scaled; [reflexivity | exact Hfs | exact Hs].
Qed.

Lemma strict_increase_binary64_witness :
  (0x1p-1022 <=? 50)%float = true /\ (50 <? infinity)%float = true /\
  (0 <=? 7)%float = true /\ (7 <? 10)%float = true /\ (10 <? 100)%float = true /\
  (float_scaled 1 <= 1000000000000 * (float_scaled 10 - float_scaled 7))%Z /\
  exists final_mass sugar_mass,
    calculate_mass_balance 50%float 7%float 10%float [] =
    (Returned (Some final_mass, Some sugar_mass), []) /\
    (50 <? final_mass)%float = true /\ (0 <? sugar_mass)%float = true.
Proof.
  split; [reflexivity|]. split; [reflexivity|]. split; [reflexivity|].
  split; [reflexivity|]. split; [reflexivity|].
  split; [vm_compute; discriminate|].
  apply (strict_increase_binary64 50%float 7%float 10%float []);
    try reflexivity. vm_compute. discriminate.
Defined.

(** C6. When [x3_input <= x1_input] the result column shows the warning and
    nothing numeric, whatever the function of line 85 is: that function is
    not called. *)
Theorem domain_rule_rejects_before_compute
    (F : Type) (num : PyFloat F)
    (compute : F -> F -> F -> Py F (option F * option F))
    (m1_input x1_input x3_input : F) (log : list (st_call F)) :
  leb x3_input x1_input = true ->
  results_column_with compute true m1_input x1_input x3_input log =
  (Returned tt,
   log ++ [Call header [Text "📊 Resultados del Cálculo"%string];
           Call warning [Text warning_message];
           Call markdown [Text "---"%string];
           Call image [Text "https://i.imgur.com/gK5L0a4.jpeg"%string;
               Text "Diagrama de referencia del problema de balance de masa."%string]]).
Proof.
  intros Hle. unfold results_column_with, bind, st, ret. rewrite Hle.
  rewrite <- !app_assoc. reflexivity.
Qed.

Lemma domain_rule_rejects_before_compute_witness :
  leb 7%float 7%float = true /\
  results_column_with calculate_mass_balance true 10%float 7%float 7%float [] =
  (Returned tt,
   [] ++ [Call header [Text "📊 Resultados del Cálculo"%string];
          Call warning [Text warning_message];
          Call markdown [Text "---"%string];
          Call image [Text "https://i.imgur.com/gK5L0a4.jpeg"%string;
               Text "Diagrama de referencia del problema de balance de masa."%string]]).
Proof.
  split; [reflexivity|].
  apply (domain_rule_rejects_before_compute float binary64 calculate_mass_balance
           10%float 7%float 7%float []).
  reflexivity.
Defined.

(** C7. For [initial_mass == 0] and concentrations in [0, 100) the call
    succeeds and both results compare equal to zero. *)
Theorem zero_mass_gives_zero
    (initial_mass initial_concentration final_concentration : float)
    (log : list (st_call float)) :
  (initial_mass =? 0)%float = true ->
  (0 <=? initial_concentration)%float = true ->
  (initial_concentration <? 100)%float = true ->
  (0 <=? final_concentration)%float = true ->
  (final_concentration <? 100)%float = true ->
  exists final_mass sugar_mass,
    calculate_mass_balance initial_mass initial_concentration final_concentration log =
    (Returned (Some final_mass, Some sugar_mass), log) /\
    (final_mass =? 0)%float = true /\ (sugar_mass =? 0)%float = true.
Proof.
  intros Hm H1lo H1hi H3lo H3hi.
  pose proof (ltb_100_not_eqb _ H3hi) as Hne.
  eexists _, _. split; [|split].
  - rewrite calculate_mass_balance_binary64, Hne. reflexivity.
  - apply zero_div_nonzero.
    + apply zero_mul_finite; [exact Hm|]. apply water_fraction_finite; assumption.
    + apply water_fraction_finite; assumption.
    + rewrite guard_iff. exact Hne.
  - apply zero_sub_zero; [|exact Hm]. apply zero_div_nonzero.
    + apply zero_mul_finite; [exact Hm|]. apply water_fraction_finite; assumption.
    + apply water_fraction_finite; assumption.
    + rewrite guard_iff. exact Hne.
Qed.

Lemma zero_mass_gives_zero_witness :
  (0 =? 0)%float = true /\ (0 <=? 7)%float = true /\ (7 <? 100)%float = true /\
  (0 <=? 10)%float = true /\ (10 <? 100)%float = true /\
  exists final_mass sugar_mass,
    calculate_mass_balance 0%float 7%float 10%float [] =
    (Returned (Some final_mass, Some sugar_mass), []) /\
    (final_mass =? 0)%float = true /\ (sugar_mass =? 0)%float = true.
Proof.
  repeat (split; [reflexivity|]).
  apply (zero_mass_gives_zero 0%float 7%float 10%float []); reflexivity.
Defined.



(** C9, as stated, fails: on the error path the function calls [st.error]. *)
Lemma error_path_effect_counterexample :
  snd (calculate_mass_balance 50%float 7%float 100%float []) =
  [Call error [Text error_message]] /\
  snd (calculate_mass_balance 50%float 7%float 100%float []) <> [].
Proof. split; [reflexivity | discriminate]. Qed.

(** C9, amended. The only effect of the function is on its error path, where
    it appends one [st.error] call with the fixed message; on the success
    path the log is unchanged. *)
Theorem compute_effects
    (initial_mass initial_concentration final_concentration : float)
    (log : list (st_call float)) :
  snd (calculate_mass_balance initial_mass initial_concentration
         final_concentration log) =
  if (final_concentration =? 100)%float
  then log ++ [Call error [Text error_message]]
  else log.
Proof.
  rewrite calculate_mass_balance_binary64.
  destruct (final_concentration =? 100)%float; reflexivity.
Qed.

(** C10. The two concentration inputs are bounded to [0.0, 99.9]; for every
    value the form can return the final water fraction is not zero, the
    function returns numbers, and neither it nor the result column calls
    [st.error]. *)
Theorem form_inputs_avoid_error
    (m1_input x1_input x3_input : float) (log : list (st_call float)) :
  in_range m1_number_input m1_input = true ->
  in_range x1_number_input x1_input = true ->
  in_range x3_number_input x3_input = true ->
  ((0 <=? x1_input)%float && (x1_input <=? 99.9)%float = true) /\
  ((0 <=? x3_input)%float && (x3_input <=? 99.9)%float = true) /\
  eqb (water_fraction x3_input) lit_0 = false /\
  (exists m3_calculada m2_calculado,
     calculate_mass_balance m1_input x1_input x3_input log =
     (Returned (Some m3_calculada, Some m2_calculado), log)) /\
  forall submit_button,
    calls_error (snd (results_column submit_button m1_input x1_input x3_input log)) =
    calls_error log.
Proof.
  intros _ H1 H3. split; [exact H1|]. split; [exact H3|].
  unfold in_range in H3. cbn in H3. apply andb_true_iff in H3. destruct H3 as [_ Hhi].
  pose proof (leb_99_9_not_eqb _ Hhi) as Hne.
  split; [|split].
  - unfold water_fraction. cbn. rewrite guard_iff. exact Hne.
  - eexists _, _. rewrite calculate_mass_balance_binary64, Hne. reflexivity.
  - intros submit_button. apply results_column_no_error. exact Hne.
Qed.

Lemma form_inputs_avoid_error_witness :
  in_range m1_number_input 50%float = true /\
  in_range x1_number_input 7%float = true /\
  in_range x3_number_input 99.9%float = true /\
  ((0 <=? 7)%float && (7 <=? 99.9)%float = true) /\
  ((0 <=? 99.9)%float && (99.9 <=? 99.9)%float = true) /\
  eqb (water_fraction 99.9%float) lit_0 = false /\
  (exists m3_calculada m2_calculado,
     calculate_mass_balance 50%float 7%float 99.9%float [] =
     (Returned (Some m3_calculada, Some m2_calculado), [])) /\
  forall submit_button,
    calls_error (snd (results_column submit_button 50%float 7%float 99.9%float [])) =
    calls_error (@nil (st_call float)).
Proof.
  split; [reflexivity|]. split; [reflexivity|]. split; [reflexivity|].
  apply (form_inputs_avoid_error 50%float 7%float 99.9%float []); reflexivity.
Defined.
